(** * createEnum: a shallow embedding of [src/createEnum.js]

    The source is one arrow function:
<<
    export const createEnum = (obj, options = {}) =>
      Object.entries(obj).reduce(
        (acc, [key, value], index) => ({
          ...acc,
          [key]: { ...options.defaultFields, name: key, index, ...value },
        }),
        {}
      );
>>
    It allocates objects (every object literal is a fresh object), copies
    own properties with the spread syntax, and reads the input objects.  The
    embedding keeps those three things explicit: JavaScript values with
    object references, a heap of objects, and a small state-and-exception
    monad in which the function body is written statement by statement.

    Scope of the model: objects are ordinary objects seen through their own
    enumerable string-keyed data properties, the only ones [Object.entries]
    lists.  Accessor properties, symbol keys, non-enumerable properties and
    properties inherited from a prototype are not represented. *)

From Stdlib Require DecimalString DecimalN DecimalPos.
From stdpp Require Import list strings numbers sorting.

(** ** Values and objects *)

(** Object identities are heap addresses. *)
Definition loc := nat.

(** JavaScript values.  Numbers are kept to the integers (the only number the
    function computes is the position [index]); a callable is an opaque
    value compared by identity, with no own enumerable property. *)
Inductive val :=
  | VUndefined
  | VNull
  | VBool (b : bool)
  | VNum (n : Z)
  | VStr (s : string)
  | VFun (f : nat)
  | VRef (l : loc).

#[global] Instance val_eq_dec : EqDecision val.
Proof. solve_decision. Defined.

(** An object is the list of its own enumerable string-keyed data properties
    in chronological order of creation.  Arrays are objects whose keys are
    array indices. *)
Abbreviation props := (list (string * val)).

(** The heap: object [l] is the [l]-th element. *)
Abbreviation heap := (list props).

(** The object at an address.  An address outside the heap reads as an object
    without properties; a well-formed heap ([heap_ok] below) holds no such
    reference. *)
Definition obj_at (h : heap) (l : loc) : props := default [] (h !! l).

(** ** Own properties *)

(** [o[k]] restricted to own properties. *)
Fixpoint get_prop (o : props) (k : string) : option val :=
  match o with
  | [] => None
  | (k', v) :: o' => if decide (k = k') then Some v else get_prop o' k
  end.

(** CreateDataProperty on an ordinary object: an existing property keeps its
    place and takes the new value, a new property is created last. *)
Fixpoint set_prop (o : props) (k : string) (v : val) : props :=
  match o with
  | [] => [(k, v)]
  | (k', v') :: o' =>
      if decide (k = k') then (k, v) :: o' else (k', v') :: set_prop o' k v
  end.

(** A property key is an array index when it is the canonical decimal form of
    an integer in [0, 2^32 - 2]. *)
Definition array_index (k : string) : option N :=
  match DecimalString.NilZero.uint_of_string k with
  | Some d =>
      let n := N.of_uint d in
      if decide (DecimalString.NilZero.string_of_uint (N.to_uint n) = k
                 ∧ (n < 2 ^ 32 - 1)%N)
      then Some n else None
  | None => None
  end.

(** Insertion sort of the index-keyed properties by ascending index. *)
Fixpoint insert_index (n : N) (p : string * val)
    (l : list (N * (string * val))) : list (N * (string * val)) :=
  match l with
  | [] => [(n, p)]
  | (m, q) :: l' =>
      if decide (n ≤ m)%N then (n, p) :: l else (m, q) :: insert_index n p l'
  end.

Fixpoint sort_index (l : list (N * (string * val))) : list (N * (string * val)) :=
  match l with
  | [] => []
  | (n, p) :: l' => insert_index n p (sort_index l')
  end.

Definition index_props (o : props) : list (N * (string * val)) :=
  omap (λ p, (λ n, (n, p)) <$> array_index p.1) o.

Definition string_props (o : props) : props :=
  filter (λ p, array_index p.1 = None) o.

(** OrdinaryOwnPropertyKeys, with the values: array indices in ascending
    numeric order, then the other string keys in creation order.  This is
    the order of [Object.entries], of [Object.keys] and of the spread. *)
Definition own_entries (o : props) : props :=
  (snd <$> sort_index (index_props o)) ++ string_props o.

(** The decimal form of a position, as a property key. *)
Definition index_key (i : nat) : string :=
  DecimalString.NilZero.string_of_uint (N.to_uint (N.of_nat i)).

(** The own enumerable properties of a string primitive: one per character
    (code unit), keyed by its position, in ascending order. *)
Fixpoint string_chars (i : nat) (s : string) : props :=
  match s with
  | EmptyString => []
  | String c s' => (index_key i, VStr (String c EmptyString)) :: string_chars (S i) s'
  end.

(** The properties a spread [...v] copies (CopyDataProperties): nothing for
    [undefined] and [null], the own enumerable properties of [ToObject(v)]
    otherwise. *)
Definition spread_src (h : heap) (v : val) : props :=
  match v with
  | VRef l => own_entries (obj_at h l)
  | VStr s => string_chars 0 s
  | _ => []
  end.

(** Own property [f] of the value [v] as an object. *)
Definition own_prop (h : heap) (v : val) (f : string) : option val :=
  get_prop (spread_src h v) f.

(** ** The monad of the function body *)

Inductive completion (A : Type) :=
  | Normal (a : A)
  | Throw_TypeError.
Arguments Normal {A} a.
Arguments Throw_TypeError {A}.

Definition M (A : Type) : Type := heap → completion (A * heap).

#[global] Instance M_ret : MRet M := λ A a h, Normal (a, h).

#[global] Instance M_bind : MBind M := λ A B f m h,
  match m h with
  | Normal (a, h') => f a h'
  | Throw_TypeError => Throw_TypeError
  end.

(** [{}]: a new object with no property, at a fresh address. *)
Definition new_object : M loc := λ h, Normal (length h, h ++ [[]]).

(** CreateDataProperty on the object at [l]. *)
Definition define_own (l : loc) (k : string) (v : val) : M unit :=
  λ h, Normal (tt, alter (λ o, set_prop o k v) l h).

Fixpoint define_all (l : loc) (src : props) : M unit :=
  match src with
  | [] => mret tt
  | (k, v) :: src' => define_own l k v ;; define_all l src'
  end.

(** [...v] inside the literal of the object [l]. *)
Definition copy_data_properties (l : loc) (v : val) : M unit :=
  λ h, define_all l (spread_src h v) h.

(** [Object.entries(obj)]: a TypeError on [undefined] and [null]. *)
Definition object_entries (obj : val) : M props :=
  λ h, match obj with
       | VUndefined | VNull => Throw_TypeError
       | _ => Normal (spread_src h obj, h)
       end.

(** [options.defaultFields]: a TypeError on [undefined] and [null]; the own
    property of an object, or [undefined] when it has none. *)
Definition get_defaultFields (options : val) : M val :=
  λ h, match options with
       | VUndefined | VNull => Throw_TypeError
       | VRef l =>
           Normal (default VUndefined (get_prop (obj_at h l) "defaultFields"), h)
       | _ => Normal (VUndefined, h)
       end.

(** [Array.prototype.reduce] with an initial value: the callback receives the
    accumulator, the element and its position. *)
Fixpoint reduce_from {A B} (f : B → A → nat → M B) (l : list A) (i : nat)
    (acc : B) : M B :=
  match l with
  | [] => mret acc
  | x :: l' => acc' ← f acc x i; reduce_from f l' (S i) acc'
  end.

(** ** The function *)

(** The callback
    [(acc, [key, value], index) =>
       ({...acc, [key]: {...options.defaultFields, name: key, index, ...value}})]. *)
Definition reducer (options : val) (acc : val) (kv : string * val) (index : nat)
    : M val :=
  let '(key, value) := kv in
  o ← new_object;
  copy_data_properties o acc;;
  e ← new_object;
  df ← get_defaultFields options;
  copy_data_properties e df;;
  define_own e "name" (VStr key);;
  define_own e "index" (VNum (Z.of_nat index));;
  copy_data_properties e value;;
  define_own o key (VRef e);;
  mret (VRef o).

Definition createEnum (obj : val) (options : val) : M val :=
  options ← (match options with
             | VUndefined => l ← new_object; mret (VRef l)
             | _ => mret options
             end);
  es ← object_entries obj;
  acc0 ← new_object;
  reduce_from (reducer options) es 0 (VRef acc0).

(** ** Pure counterparts used to describe the heap after a call *)

(** What a run of [define_all] does to the object it fills. *)
Definition spread_into (acc src : props) : props :=
  foldl (λ o p, set_prop o p.1 p.2) acc src.

(** The inner literal [{...defaultFields, name: key, index, ...value}], given
    the properties the two spreads copy. *)
Definition entry_props (dfs : props) (key : string) (index : nat) (vs : props)
    : props :=
  spread_into
    (set_prop (set_prop (spread_into [] dfs) "name" (VStr key))
       "index" (VNum (Z.of_nat index)))
    vs.

(** [options.defaultFields] as a value, when reading it does not throw.  The
    default parameter [options = {}] has no such property. *)
Definition defaultFields_of (h : heap) (options : val) : val :=
  match options with
  | VRef l => default VUndefined (get_prop (obj_at h l) "defaultFields")
  | _ => VUndefined
  end.

(** An object literal [{k0: v0, ..., kn: vn}] as a caller writes it: the
    properties are created in source order, a repeated key keeps its first
    place and takes its last value.  (The keys are computed keys or
    identifiers other than [__proto__].) *)
Definition obj_literal (l : props) : props := spread_into [] l.

(** ** Well-formed heaps *)

(** A reference is valid when it points into the heap. *)
Definition val_ok (h : heap) (v : val) : Prop :=
  match v with
  | VRef l => l < length h
  | _ => True
  end.

#[global] Instance val_ok_dec h v : Decision (val_ok h v).
Proof. destruct v; simpl; apply _. Defined.

(** An object has each key once, and its values are valid. *)
Definition obj_ok (h : heap) (o : props) : Prop :=
  NoDup o.*1 ∧ Forall (λ p, val_ok h p.2) o.

#[global] Instance obj_ok_dec h o : Decision (obj_ok h o).
Proof. unfold obj_ok. apply _. Defined.

Definition heap_ok (h : heap) : Prop := Forall (obj_ok h) h.

#[global] Instance heap_ok_dec h : Decision (heap_ok h).
Proof. unfold heap_ok. apply _. Defined.

(** The order of [Object.entries] on keys: an array index comes before a
    larger index and before every other key. *)
Definition key_before (a b : string) : Prop :=
  match array_index a, array_index b with
  | Some i, Some j => (i ≤ j)%N
  | Some _, None => True
  | None, Some _ => False
  | None, None => True
  end.

Definition key_sorted (ks : list string) : Prop := StronglySorted key_before ks.

(** ** The heap after a call *)

(** [built h es dfs h' t locs]: started in [h] on the entries [es] with the
    default properties [dfs], the call ends in [h'] with the table at [t],
    whose entry objects are, in order, [locs]. *)
Record built (h : heap) (es dfs : props) (h' : heap) (t : loc)
    (locs : list loc) : Prop := {
  built_extends : h `prefix_of` h';
  built_table_fresh : length h ≤ t < length h';
  built_table : obj_at h' t = zip es.*1 (VRef <$> locs);
  built_length : length locs = length es;
  built_NoDup : NoDup locs;
  built_fresh : Forall (λ e, length h ≤ e < length h') locs;
  built_table_not_entry : t ∉ locs;
  built_entries : ∀ i k v e,
    es !! i = Some (k, v) → locs !! i = Some e →
    obj_at h' e = entry_props dfs k i (spread_src h v)
}.

(** ** Reading the result *)

(** [Object.keys(v)]. *)
Definition object_keys (h : heap) (v : val) : list string := (spread_src h v).*1.

(** The calls the theorems are about: a heap whose objects are well formed,
    arguments that live in it, a first argument on which [Object.entries]
    does not throw and options on which [options.defaultFields] does not. *)
Definition valid_call (h : heap) (obj options : val) : Prop :=
  heap_ok h ∧ val_ok h obj ∧ val_ok h options ∧
  obj ≠ VUndefined ∧ obj ≠ VNull ∧ options ≠ VNull.

#[global] Instance valid_call_dec h obj options : Decision (valid_call h obj options).
Proof. unfold valid_call. apply _. Defined.

(** ** Structural equality *)

(** Two objects have the same properties, in the same order, with related
    values. *)
Definition rel_props (R : val → val → Prop) (p q : props) : Prop :=
  Forall2 (λ x y, x.1 = y.1 ∧ R x.2 y.2) p q.

(** Equality of two values, each in its heap, down to depth [n]: primitives
    and callables are equal, objects have the same [Object.entries] up to
    the equality of the values at depth [n - 1]. *)
Fixpoint deep_eq (n : nat) (h1 h2 : heap) (v1 v2 : val) {struct n} : Prop :=
  match v1, v2 with
  | VRef l1, VRef l2 =>
      match n with
      | 0 => True
      | S m =>
          rel_props (deep_eq m h1 h2)
            (own_entries (obj_at h1 l1)) (own_entries (obj_at h2 l2))
      end
  | _, _ => v1 = v2
  end.

(** Structural equality is equality at every depth. *)
Definition struct_eq (h1 h2 : heap) (v1 v2 : val) : Prop :=
  ∀ n, deep_eq n h1 h2 v1 v2.

(** The same relation on index-keyed properties paired with their index. *)
Definition rel_indexed (R : val → val → Prop)
    (l1 l2 : list (N * (string * val))) : Prop :=
  Forall2 (λ x y, x.1 = y.1 ∧ x.2.1 = y.2.1 ∧ R x.2.2 y.2.2) l1 l2.

(** ** The callers of the documentation *)

(** The usage patterns documented with the function read a built table with
    [Object.values] and the array methods [find], [map] and [filter].  The
    arrays are kept as the lists of their elements; the table each snippet
    closes over ([LogLevels], [OrderStatuses], [Durations]) is a parameter. *)

(** [Object.values(v)]: a TypeError on [undefined] and [null]. *)
Definition object_values (v : val) : M (list val) :=
  λ h, match v with
       | VUndefined | VNull => Throw_TypeError
       | _ => Normal ((spread_src h v).*2, h)
       end.

(** [v.f] as a value, when reading it does not throw, for a field [f] that no
    built-in prototype and no primitive defines (the callers read [value],
    [canCancel] and [isDefault]). *)
Definition member_of (h : heap) (v : val) (f : string) : val :=
  match v with
  | VRef l => default VUndefined (get_prop (obj_at h l) f)
  | _ => VUndefined
  end.

(** [v.f] for such a field: a TypeError on [undefined] and [null]. *)
Definition get_member (v : val) (f : string) : M val :=
  λ h, match v with
       | VUndefined | VNull => Throw_TypeError
       | _ => Normal (member_of h v f, h)
       end.

(** [a === b].  Numbers are integers here, so there is no [NaN]. *)
Definition strict_eq (a b : val) : bool := bool_decide (a = b).

(** ToBoolean. *)
Definition to_boolean (v : val) : bool :=
  match v with
  | VUndefined | VNull => false
  | VBool b => b
  | VNum n => bool_decide (n ≠ 0%Z)
  | VStr s => bool_decide (s ≠ "")
  | VFun _ | VRef _ => true
  end.

(** [Array.prototype.find]: the first element on which the callback returns
    a truthy value, [undefined] when there is none. *)
Fixpoint array_find (p : val → M val) (l : list val) : M val :=
  match l with
  | [] => mret VUndefined
  | x :: l' => r ← p x; if to_boolean r then mret x else array_find p l'
  end.

(** [Array.prototype.map]. *)
Fixpoint array_map (f : val → M val) (l : list val) : M (list val) :=
  match l with
  | [] => mret []
  | x :: l' => y ← f x; ys ← array_map f l'; mret (y :: ys)
  end.

(** [Array.prototype.filter]. *)
Fixpoint array_filter (p : val → M val) (l : list val) : M (list val) :=
  match l with
  | [] => mret []
  | x :: l' =>
      r ← p x; xs ← array_filter p l';
      mret (if to_boolean r then x :: xs else xs)
  end.

(** [(value) => Object.values(LogLevels).find((level) => level.value === value)] *)
Definition getLogLevelByValue (LogLevels : val) (value : val) : M val :=
  levels ← object_values LogLevels;
  array_find
    (λ level, x ← get_member level "value"; mret (VBool (strict_eq x value)))
    levels.

(** [Object.values(LogLevels).map((l) => l.value)] *)
Definition LOG_LEVEL_VALUES (LogLevels : val) : M (list val) :=
  levels ← object_values LogLevels;
  array_map (λ l, get_member l "value") levels.

(** [Object.values(OrderStatuses).filter((s) => s.canCancel)] *)
Definition cancelableStatuses (OrderStatuses : val) : M (list val) :=
  statuses ← object_values OrderStatuses;
  array_filter (λ s, get_member s "canCancel") statuses.

(** [() => Object.values(Durations).find((d) => d.isDefault)] *)
Definition getDefault (Durations : val) : M val :=
  durations ← object_values Durations;
  array_find (λ d, get_member d "isDefault") durations.

(** [({ value, label, icon }) => ({ value, label, icon })]: the destructuring
    reads the three fields in order (a TypeError on [undefined] and [null]),
    the literal allocates a new object. *)
Definition contactOption (m : val) : M val :=
  value ← get_member m "value";
  label ← get_member m "label";
  icon ← get_member m "icon";
  o ← new_object;
  define_own o "value" value;;
  define_own o "label" label;;
  define_own o "icon" icon;;
  mret (VRef o).

(** [Object.values(ContactMethods).map(({ value, label, icon }) =>
       ({ value, label, icon }))], the constant [options] of the form
    example. *)
Definition contactOptions (ContactMethods : val) : M (list val) :=
  methods ← object_values ContactMethods;
  array_map contactOption methods.

(** The value the merge gives the entry of spec [v] for a field [f] other
    than [name] and [index]: the spec's own, else the default, else
    [undefined]. *)
Definition merged_field (h : heap) (df v : val) (f : string) : val :=
  match own_prop h v f with
  | Some x => x
  | None => default VUndefined (own_prop h df f)
  end.

(** ** Concrete calls *)

Module Examples.

(** Scenario A: [createEnum({RED: {hex: "#F00"}, GREEN: {hex: "#0F0"}})]. *)
Definition heapA : heap :=
  [ obj_literal [("hex", VStr "#F00")];
    obj_literal [("hex", VStr "#0F0")];
    obj_literal [("RED", VRef 0); ("GREEN", VRef 1)] ].

(** Scenario B:
    [createEnum({VIEWER: {label: "Viewer"},
                 EDITOR: {label: "Editor", canEdit: true}},
                {defaultFields: {canEdit: false}})]. *)
Definition heapB : heap :=
  [ obj_literal [("label", VStr "Viewer")];
    obj_literal [("label", VStr "Editor"); ("canEdit", VBool true)];
    obj_literal [("VIEWER", VRef 0); ("EDITOR", VRef 1)];
    obj_literal [("canEdit", VBool false)];
    obj_literal [("defaultFields", VRef 3)] ].

(** Scenario C: [createEnum({A: {}, B: {}})]. *)
Definition heapC : heap :=
  [ obj_literal []; obj_literal [];
    obj_literal [("A", VRef 0); ("B", VRef 1)] ].

(** [createEnum({b: {}, 1: {}})]: the key [b] is written first. *)
Definition heap_numeric_key : heap :=
  [ obj_literal []; obj_literal [];
    obj_literal [("b", VRef 0); ("1", VRef 1)] ].

(** [createEnum({A: {}}, {defaultFields: {name: "x", index: 9, unit: "m"}})]. *)
Definition heap_default_name : heap :=
  [ obj_literal [];
    obj_literal [("A", VRef 0)];
    obj_literal [("name", VStr "x"); ("index", VNum 9); ("unit", VStr "m")];
    obj_literal [("defaultFields", VRef 2)] ].

(** [createEnum({A: {name: "custom", index: 7}})]. *)
Definition heap_own_name : heap :=
  [ obj_literal [("name", VStr "custom"); ("index", VNum 7)];
    obj_literal [("A", VRef 0)] ].

(** [createEnum({A: {f: undefined}}, {defaultFields: {f: 1}})]. *)
Definition heap_undefined_field : heap :=
  [ obj_literal [("f", VUndefined)];
    obj_literal [("A", VRef 0)];
    obj_literal [("f", VNum 1)];
    obj_literal [("defaultFields", VRef 2)] ].

(** [createEnum({A: {tags: ["x"]}}, {defaultFields: d, extra: 1})] with
    [d = {}], and the other options [{defaultFields: d}]. *)
Definition heap_nested : heap :=
  [ obj_literal [("0", VStr "x")];
    obj_literal [("tags", VRef 0)];
    obj_literal [("A", VRef 1)];
    obj_literal [];
    obj_literal [("defaultFields", VRef 3); ("extra", VNum 1)];
    obj_literal [("defaultFields", VRef 3)] ].

(** Scenario B again, with the same objects at other addresses. *)
Definition heapB_moved : heap :=
  [ obj_literal [("defaultFields", VRef 4)];
    obj_literal [("VIEWER", VRef 3); ("EDITOR", VRef 2)];
    obj_literal [("label", VStr "Editor"); ("canEdit", VBool true)];
    obj_literal [("label", VStr "Viewer")];
    obj_literal [("canEdit", VBool false)] ].

End Examples.

(** Tables of the documented usage patterns. *)
Module CallerExamples.

(** [createEnum({ERROR: {value: "error", severity: 1},
                 WARN: {value: "warn", severity: 2},
                 INFO: {value: "info", severity: 3}})]. *)
Definition heap_levels : heap :=
  [ obj_literal [("value", VStr "error"); ("severity", VNum 1)];
    obj_literal [("value", VStr "warn"); ("severity", VNum 2)];
    obj_literal [("value", VStr "info"); ("severity", VNum 3)];
    obj_literal [("ERROR", VRef 0); ("WARN", VRef 1); ("INFO", VRef 2)] ].

(** [createEnum({PENDING: {canCancel: true}, SHIPPED: {},
                 PROCESSING: {canCancel: true}, DELIVERED: {canCancel: false}},
                {defaultFields: {canCancel: false}})]. *)
Definition heap_statuses : heap :=
  [ obj_literal [("canCancel", VBool true)];
    obj_literal [];
    obj_literal [("canCancel", VBool true)];
    obj_literal [("canCancel", VBool false)];
    obj_literal [("PENDING", VRef 0); ("SHIPPED", VRef 1);
                 ("PROCESSING", VRef 2); ("DELIVERED", VRef 3)];
    obj_literal [("canCancel", VBool false)];
    obj_literal [("defaultFields", VRef 5)] ].

(** [createEnum({SHORT: {value: "5m"},
                 MEDIUM: {value: "15m", isDefault: true},
                 LONG: {value: "1h"}})]. *)
Definition heap_durations : heap :=
  [ obj_literal [("value", VStr "5m")];
    obj_literal [("value", VStr "15m"); ("isDefault", VBool true)];
    obj_literal [("value", VStr "1h")];
    obj_literal [("SHORT", VRef 0); ("MEDIUM", VRef 1); ("LONG", VRef 2)] ].

(** [createEnum({EMAIL: {value: "email", label: "Email", icon: "mail"},
                 PHONE: {value: "phone", label: "Phone"}})]. *)
Definition heap_contacts : heap :=
  [ obj_literal [("value", VStr "email"); ("label", VStr "Email");
                 ("icon", VStr "mail")];
    obj_literal [("value", VStr "phone"); ("label", VStr "Phone")];
    obj_literal [("EMAIL", VRef 0); ("PHONE", VRef 1)] ].

End CallerExamples.

(** ** Proof automation for concrete heaps *)

(** Decidable side conditions on a concrete heap. *)
Ltac by_computation := apply (bool_decide_unpack _); vm_compute; reflexivity.

(** One level of [deep_eq] on two concrete objects. *)
Ltac deep_eq_step prim :=
  lazymatch goal with
  | |- deep_eq 0 _ _ (VRef _) (VRef _) => exact I
  | |- deep_eq (S ?n) ?h1 ?h2 (VRef ?l1) (VRef ?l2) =>
      let p := eval vm_compute in (own_entries (obj_at h1 l1)) in
      let q := eval vm_compute in (own_entries (obj_at h2 l2)) in
      change (Forall2 (λ x y, x.1 = y.1 ∧ deep_eq n h1 h2 x.2 y.2) p q)
  | |- deep_eq _ _ _ _ _ => apply prim; intros ?; discriminate
  | |- Forall2 _ [] [] => constructor
  | |- Forall2 _ (_ :: _) (_ :: _) =>
      constructor; [split; [reflexivity | cbn [snd]]|]
  end.

(** * Lemmas and theorems *)

(** ** Own-property lemmas *)

Section props_lemmas.
Implicit Types (o acc src : props) (k f : string) (v : val).

Lemma get_prop_None o k : get_prop o k = None ↔ k ∉ o.*1.
Proof.
  induction o as [|[k' v'] o IH]; simpl.
  - split; [intros _; apply not_elem_of_nil | done].
  - case_decide as Hk; subst.
    + split; [done | intros Hk; destruct Hk; left].
    + rewrite IH, not_elem_of_cons. tauto.
Qed.

Lemma get_prop_Some_elem o k v : get_prop o k = Some v → (k, v) ∈ o.
Proof.
  induction o as [|[k' v'] o IH]; simpl; [done|].
  case_decide; [intros [= ->]; subst; left | right; auto].
Qed.

Lemma get_prop_elem o k v : NoDup o.*1 → (k, v) ∈ o → get_prop o k = Some v.
Proof.
  induction o as [|[k' v'] o IH]; simpl; [by intros _ ?%elem_of_nil|].
  intros [Hk Hnd]%NoDup_cons [[= -> ->]|Hin]%elem_of_cons.
  - by rewrite decide_True.
  - rewrite decide_False; [auto|].
    intros ->. apply Hk. by apply (list_elem_of_fmap_2 fst _ (k', v)).
Qed.

Lemma get_prop_perm o o' k :
  NoDup o.*1 → o ≡ₚ o' → get_prop o k = get_prop o' k.
Proof.
  intros Hnd Hp.
  assert (NoDup o'.*1) as Hnd' by (by rewrite <-Hp).
  destruct (get_prop o k) as [v|] eqn:E.
  - symmetry. apply get_prop_elem; [done|].
    rewrite <-Hp. by apply get_prop_Some_elem.
  - symmetry. apply get_prop_None. rewrite <-Hp. by apply get_prop_None.
Qed.

Lemma get_prop_set_prop o k v f :
  get_prop (set_prop o k v) f = if decide (f = k) then Some v else get_prop o f.
Proof.
  induction o as [|[k' v'] o IH]; simpl.
  - by repeat case_decide.
  - repeat (case_decide; simpl; subst); done.
Qed.

Lemma set_prop_fresh o k v : k ∉ o.*1 → set_prop o k v = o ++ [(k, v)].
Proof.
  induction o as [|[k' v'] o IH]; simpl; [done|].
  intros [? ?]%not_elem_of_cons. rewrite decide_False by done. by rewrite IH.
Qed.

Lemma set_prop_keys_present o k v : k ∈ o.*1 → (set_prop o k v).*1 = o.*1.
Proof.
  induction o as [|[k' v'] o IH]; simpl; [by intros ?%elem_of_nil|].
  case_decide; subst; csimpl; [done|].
  intros [?|?]%elem_of_cons; [done|]. by rewrite IH.
Qed.

Lemma set_prop_NoDup o k v : NoDup o.*1 → NoDup (set_prop o k v).*1.
Proof.
  intros Hnd. destruct (decide (k ∈ o.*1)) as [Hin|Hin].
  - by rewrite set_prop_keys_present.
  - rewrite set_prop_fresh, fmap_app by done. simpl.
    apply NoDup_app. split_and!; [done| |apply NoDup_singleton].
    intros x Hx ->%list_elem_of_singleton. done.
Qed.

Lemma spread_into_NoDup acc src : NoDup acc.*1 → NoDup (spread_into acc src).*1.
Proof.
  revert acc. induction src as [|[k v] src IH]; intros acc Hnd; simpl; [done|].
  apply IH. by apply set_prop_NoDup.
Qed.

(** A spread leaves the properties it does not name as they were. *)
Lemma get_prop_spread_into_absent acc src f :
  f ∉ src.*1 → get_prop (spread_into acc src) f = get_prop acc f.
Proof.
  revert acc. induction src as [|[k v] src IH]; intros acc; simpl; [done|].
  intros [? ?]%not_elem_of_cons. unfold spread_into in *. simpl.
  rewrite IH by done. rewrite get_prop_set_prop. by rewrite decide_False.
Qed.

(** A spread imposes the properties it names. *)
Lemma get_prop_spread_into_present acc src f v :
  NoDup src.*1 → get_prop src f = Some v →
  get_prop (spread_into acc src) f = Some v.
Proof.
  revert acc. induction src as [|[k v'] src IH]; intros acc; simpl; [done|].
  intros [Hk Hnd]%NoDup_cons. unfold spread_into in *. simpl.
  case_decide as Hf; subst.
  - intros [= ->]. fold (spread_into (set_prop acc k v) src).
    rewrite get_prop_spread_into_absent by done.
    rewrite get_prop_set_prop. by rewrite decide_True.
  - intros ?. by apply IH.
Qed.

Lemma spread_into_app_fresh acc src :
  NoDup (acc.*1 ++ src.*1) → spread_into acc src = acc ++ src.
Proof.
  revert acc. induction src as [|[k v] src IH]; intros acc; simpl.
  - intros _. by rewrite app_nil_r.
  - intros Hnd. unfold spread_into in *. simpl.
    assert (k ∉ acc.*1) as Hk.
    { apply NoDup_app in Hnd as (_ & Hd & _). intros Hin.
      apply (Hd _ Hin). left. }
    rewrite set_prop_fresh by done. rewrite IH.
    + by rewrite <-app_assoc.
    + rewrite fmap_app. simpl. by rewrite <-app_assoc.
Qed.

Lemma spread_into_nil src : NoDup src.*1 → spread_into [] src = src.
Proof. intros. by rewrite spread_into_app_fresh. Qed.

End props_lemmas.

(** ** The order of [Object.entries] *)

Section own_entries_lemmas.
Implicit Types (o : props) (k : string) (l : list (N * (string * val))).

Lemma insert_index_perm n p l : insert_index n p l ≡ₚ (n, p) :: l.
Proof.
  induction l as [|[m q] l IH]; simpl; [done|].
  case_decide; [done|]. rewrite IH. apply perm_swap.
Qed.

Lemma sort_index_perm l : sort_index l ≡ₚ l.
Proof.
  induction l as [|[n p] l IH]; simpl; [done|].
  by rewrite insert_index_perm, IH.
Qed.

Lemma insert_index_front n p l :
  Forall (λ x, (n ≤ x.1)%N) l → insert_index n p l = (n, p) :: l.
Proof.
  destruct l as [|[m q] l]; simpl; [done|].
  intros [Hle _]%Forall_cons. simpl in Hle. by rewrite decide_True.
Qed.

Lemma insert_index_sorted n p l :
  StronglySorted (λ x y, (x.1 ≤ y.1)%N) l →
  StronglySorted (λ x y, (x.1 ≤ y.1)%N) (insert_index n p l).
Proof.
  induction 1 as [|[m q] l Hs IH Hall]; simpl.
  - repeat constructor.
  - case_decide as Hle.
    + constructor; [by constructor|].
      constructor; [done|].
      eapply Forall_impl; [exact Hall|]. simpl. intros [] ?. simpl in *. lia.
    + constructor; [done|].
      rewrite insert_index_perm. constructor; [simpl; lia | done].
Qed.

Lemma sort_index_sorted l :
  StronglySorted (λ x y, (x.1 ≤ y.1)%N) (sort_index l).
Proof.
  induction l as [|[n p] l IH]; simpl; [constructor|].
  by apply insert_index_sorted.
Qed.

Lemma index_props_elem o x :
  x ∈ index_props o → x.2 ∈ o ∧ array_index x.2.1 = Some x.1.
Proof.
  unfold index_props. rewrite list_elem_of_omap.
  intros (p & Hp & Hx). destruct (array_index p.1) eqn:E; simplify_eq/=. done.
Qed.

Lemma index_props_nil o :
  Forall (λ p, array_index p.1 = None) o → index_props o = [].
Proof.
  induction 1 as [|p o Hp _ IH]; [done|].
  unfold index_props in *. csimpl. by rewrite Hp, IH.
Qed.

Lemma string_props_all o :
  Forall (λ p, array_index p.1 = None) o → string_props o = o.
Proof.
  induction 1 as [|p o Hp _ IH]; [done|].
  unfold string_props in *. rewrite filter_cons_True by done. by rewrite IH.
Qed.

Lemma partition_props_perm o : (index_props o).*2 ++ string_props o ≡ₚ o.
Proof.
  induction o as [|p o IH]; [done|].
  unfold index_props, string_props in *. csimpl.
  destruct (array_index p.1) eqn:E; csimpl.
  - rewrite filter_cons_False by (by rewrite E). by rewrite IH.
  - rewrite filter_cons_True by done.
    rewrite <-Permutation_middle. by rewrite IH.
Qed.

(** [Object.entries] lists every own property once. *)
Lemma own_entries_perm o : own_entries o ≡ₚ o.
Proof.
  unfold own_entries. rewrite sort_index_perm. apply partition_props_perm.
Qed.

Lemma own_entries_NoDup o : NoDup o.*1 → NoDup (own_entries o).*1.
Proof. by rewrite own_entries_perm. Qed.

Lemma get_prop_own_entries o k :
  NoDup o.*1 → get_prop (own_entries o) k = get_prop o k.
Proof.
  intros Hnd. apply get_prop_perm; [by apply own_entries_NoDup|].
  apply own_entries_perm.
Qed.

Lemma key_sorted_indices l :
  Forall (λ x, array_index x.2.1 = Some x.1) l →
  StronglySorted (λ x y, (x.1 ≤ y.1)%N) l →
  key_sorted l.*2.*1.
Proof.
  intros Hall Hs. induction Hs as [|x l Hs IH Hx]; [constructor|].
  apply Forall_cons in Hall as [Hxi Hall]. csimpl.
  constructor; [by apply IH|].
  rewrite !Forall_fmap. rewrite Forall_forall in Hx, Hall.
  apply Forall_forall. intros y Hy. simpl. unfold key_before.
  rewrite Hxi, (Hall y Hy). by apply Hx.
Qed.

Lemma key_sorted_strings (ks : list string) :
  Forall (λ k, array_index k = None) ks → key_sorted ks.
Proof.
  induction 1 as [|k ks Hk Hall IH]; [constructor|].
  constructor; [done|].
  eapply Forall_impl; [exact Hall|]. intros k' Hk'.
  unfold key_before. by rewrite Hk, Hk'.
Qed.

(** The keys of [Object.entries] come in key order. *)
Lemma own_entries_sorted o : key_sorted (own_entries o).*1.
Proof.
  unfold own_entries. rewrite fmap_app. apply StronglySorted_app_2.
  - intros k1 k2 Hk1 Hk2.
    apply list_elem_of_fmap in Hk1 as (p1 & -> & Hp1).
    apply list_elem_of_fmap in Hp1 as (x1 & -> & Hx1).
    rewrite sort_index_perm in Hx1. apply index_props_elem in Hx1 as [_ Hx1].
    apply list_elem_of_fmap in Hk2 as (p2 & -> & Hp2).
    apply list_elem_of_filter in Hp2 as [Hp2 _].
    unfold key_before. by rewrite Hx1, Hp2.
  - apply key_sorted_indices; [|apply sort_index_sorted].
    apply Forall_forall. intros x Hx. rewrite sort_index_perm in Hx.
    by apply index_props_elem in Hx as [_ ?].
  - apply key_sorted_strings. rewrite Forall_fmap.
    apply Forall_forall. intros p Hp.
    by apply list_elem_of_filter in Hp as [? _].
Qed.

(** On an object whose properties were created in key order,
    [Object.entries] is the creation order. *)
Lemma own_entries_id o : key_sorted o.*1 → own_entries o = o.
Proof.
  induction o as [|p o IH]; [done|].
  csimpl. intros [Hall Hs]%StronglySorted_cons. specialize (IH Hs).
  rewrite Forall_fmap in Hall.
  unfold own_entries, index_props, string_props in *. csimpl.
  destruct (array_index p.1) as [n|] eqn:E; csimpl.
  - rewrite filter_cons_False by (by rewrite E).
    rewrite insert_index_front.
    + csimpl. f_equal. exact IH.
    + apply Forall_forall. intros x Hx. rewrite sort_index_perm in Hx.
      apply index_props_elem in Hx as [Hin Hx].
      rewrite Forall_forall in Hall. specialize (Hall _ Hin). simpl in Hall.
      unfold key_before in Hall. by rewrite E, Hx in Hall.
  - assert (Forall (λ q, array_index q.1 = None) o) as Hnone.
    { eapply Forall_impl; [exact Hall|]. intros q. simpl. unfold key_before.
      rewrite E. by destruct (array_index q.1). }
    rewrite filter_cons_True by done.
    fold (index_props o). fold (string_props o).
    by rewrite index_props_nil, string_props_all.
Qed.

Lemma key_sorted_app_l (ks1 ks2 : list string) :
  key_sorted (ks1 ++ ks2) → key_sorted ks1.
Proof. apply StronglySorted_app_1_l. Qed.

End own_entries_lemmas.

(** ** The characters of a string primitive *)

Section string_chars_lemmas.

Lemma array_index_index_key i :
  array_index (index_key i) =
    if decide (N.of_nat i < 2 ^ 32 - 1)%N then Some (N.of_nat i) else None.
Proof.
  unfold array_index, index_key.
  rewrite DecimalString.NilZero.usu.
  - simpl. rewrite DecimalN.Unsigned.of_to.
    repeat case_decide; try done; tauto.
  - destruct (N.of_nat i); simpl; [done|]. apply DecimalPos.Unsigned.to_uint_nonnil.
Qed.

Lemma index_key_inj i j : index_key i = index_key j → i = j.
Proof.
  unfold index_key. intros Heq.
  apply (f_equal DecimalString.NilZero.uint_of_string) in Heq.
  assert (∀ n, N.to_uint n ≠ Decimal.Nil) as Hnn.
  { intros [|q]; simpl; [done|]. apply DecimalPos.Unsigned.to_uint_nonnil. }
  rewrite !DecimalString.NilZero.usu in Heq by apply Hnn.
  injection Heq as Heq. apply DecimalN.Unsigned.to_uint_inj in Heq. lia.
Qed.

Lemma string_chars_keys i s k :
  k ∈ (string_chars i s).*1 → ∃ j, i ≤ j ∧ k = index_key j.
Proof.
  revert i. induction s as [|c s IH]; intros i; csimpl.
  - by intros ?%elem_of_nil.
  - intros [->|Hin]%elem_of_cons; [exists i; split; [lia|done]|].
    destruct (IH _ Hin) as (j & ? & ->). exists j. split; [lia|done].
Qed.

Lemma string_chars_NoDup i s : NoDup (string_chars i s).*1.
Proof.
  revert i. induction s as [|c s IH]; intros i; csimpl; [constructor|].
  constructor; [|apply IH].
  intros (j & Hj & Heq)%string_chars_keys. apply index_key_inj in Heq. lia.
Qed.

Lemma string_chars_sorted i s : key_sorted (string_chars i s).*1.
Proof.
  revert i. induction s as [|c s IH]; intros i; csimpl; [constructor|].
  constructor; [apply IH|].
  apply Forall_forall. intros k (j & Hj & ->)%string_chars_keys.
  unfold key_before. rewrite !array_index_index_key.
  repeat case_decide; try done; lia.
Qed.

End string_chars_lemmas.

(** ** Reading the heap *)

Section heap_lemmas.
Implicit Types (h ext : heap) (v : val) (l a : loc).

Lemma obj_at_app_l h ext l : l < length h → obj_at (h ++ ext) l = obj_at h l.
Proof. intros ?. unfold obj_at. by rewrite lookup_app_l. Qed.

Lemma obj_at_length h ext (o : props) : obj_at (h ++ o :: ext) (length h) = o.
Proof. unfold obj_at. by rewrite list_lookup_middle. Qed.

(** What a spread copies from a valid value does not depend on the objects
    allocated later. *)
Lemma spread_src_app h ext v :
  val_ok h v → spread_src (h ++ ext) v = spread_src h v.
Proof. destruct v; simpl; [done..|]. intros ?. by rewrite obj_at_app_l. Qed.

Lemma obj_at_ok h l : heap_ok h → obj_ok h (obj_at h l).
Proof.
  intros Hh. unfold obj_at. destruct (h !! l) as [o|] eqn:E; simpl.
  - unfold heap_ok in Hh. rewrite Forall_forall in Hh.
    apply Hh. by eapply list_elem_of_lookup_2.
  - split; [constructor | constructor].
Qed.

Lemma spread_src_NoDup h v : heap_ok h → NoDup (spread_src h v).*1.
Proof.
  intros Hh. destruct v; simpl; try constructor.
  - apply string_chars_NoDup.
  - apply own_entries_NoDup. by apply obj_at_ok.
Qed.

Lemma spread_src_sorted h v : key_sorted (spread_src h v).*1.
Proof.
  destruct v; simpl; try constructor.
  - apply string_chars_sorted.
  - apply own_entries_sorted.
Qed.

Lemma string_chars_val_ok h i s : Forall (λ p, val_ok h p.2) (string_chars i s).
Proof. revert i. induction s; intros i; simpl; constructor; [done | auto]. Qed.

Lemma spread_src_val_ok h v :
  heap_ok h → Forall (λ p, val_ok h p.2) (spread_src h v).
Proof.
  intros Hh. destruct v; simpl; try constructor.
  - apply string_chars_val_ok.
  - rewrite own_entries_perm. by apply obj_at_ok.
Qed.

Lemma get_prop_val_ok h (o : props) k v :
  Forall (λ p, val_ok h p.2) o → get_prop o k = Some v → val_ok h v.
Proof.
  intros Hall Hget%get_prop_Some_elem. rewrite Forall_forall in Hall.
  apply (Hall _ Hget).
Qed.

Lemma defaultFields_of_ok h options :
  heap_ok h → val_ok h (defaultFields_of h options).
Proof.
  intros Hh. destruct options; simpl; try done.
  destruct (get_prop (obj_at h l) "defaultFields") as [v|] eqn:E; simpl; [|done].
  eapply get_prop_val_ok; [|exact E]. by apply obj_at_ok.
Qed.

Lemma defaultFields_of_app h ext options :
  val_ok h options →
  defaultFields_of (h ++ ext) options = defaultFields_of h options.
Proof. destruct options; simpl; [done..|]. intros ?. by rewrite obj_at_app_l. Qed.

Lemma val_ok_app h ext v : val_ok h v → val_ok (h ++ ext) v.
Proof. destruct v; simpl; [done..|]. rewrite length_app. lia. Qed.

End heap_lemmas.

(** ** Running the function body *)

Section run_lemmas.
Implicit Types (h : heap) (v acc options : val) (a : loc) (src : props).

Lemma alter_fresh_0 (f : props → props) h (o : props) (t : heap) :
  alter f (length h) (h ++ o :: t) = h ++ f o :: t.
Proof.
  rewrite alter_app_r_alt by lia. by rewrite Nat.sub_diag.
Qed.

Lemma alter_fresh_1 (f : props → props) h (o e : props) (t : heap) :
  alter f (S (length h)) (h ++ o :: e :: t) = h ++ o :: f e :: t.
Proof.
  rewrite alter_app_r_alt by lia.
  by replace (S (length h) - length h) with 1 by lia.
Qed.

Lemma define_all_run a src h :
  define_all a src h = Normal (tt, alter (λ o, spread_into o src) a h).
Proof.
  revert h. induction src as [|[k v] src IH]; intros h; simpl.
  - unfold mret, M_ret. by rewrite list_alter_id.
  - unfold mbind, M_bind, define_own. rewrite IH.
    by rewrite list_alter_alter_eq.
Qed.

Lemma copy_data_properties_run a v h :
  copy_data_properties a v h =
    Normal (tt, alter (λ o, spread_into o (spread_src h v)) a h).
Proof. unfold copy_data_properties. apply define_all_run. Qed.

Lemma get_defaultFields_run options h :
  options ≠ VUndefined → options ≠ VNull →
  get_defaultFields options h = Normal (defaultFields_of h options, h).
Proof. by destruct options. Qed.

(** One call of the callback allocates the new table, then the new entry,
    and leaves every older object as it was. *)
Lemma reducer_run h options a k v i :
  a < length h → val_ok h options → val_ok h v →
  val_ok h (defaultFields_of h options) →
  options ≠ VUndefined → options ≠ VNull →
  reducer options (VRef a) (k, v) i h =
    Normal (VRef (length h),
            h ++ [ set_prop (spread_into [] (own_entries (obj_at h a))) k
                     (VRef (S (length h)));
                   entry_props (spread_src h (defaultFields_of h options)) k i
                     (spread_src h v) ]).
Proof.
  intros Ha Hopt Hv Hdf Hu Hn.
  unfold reducer, mbind, M_bind, new_object.
  rewrite copy_data_properties_run, alter_fresh_0.
  rewrite (spread_src_app h [[]] (VRef a)) by done. simpl spread_src at 1.
  rewrite length_app. simpl length. rewrite Nat.add_1_r.
  rewrite get_defaultFields_run by done.
  rewrite <-app_assoc. simpl app.
  rewrite copy_data_properties_run.
  rewrite defaultFields_of_app by done.
  rewrite spread_src_app by done.
  rewrite alter_fresh_1.
  unfold define_own. rewrite !alter_fresh_1.
  rewrite copy_data_properties_run.
  rewrite spread_src_app by done.
  rewrite alter_fresh_1, alter_fresh_0.
  unfold mret, M_ret. do 2 f_equal.
Qed.

(** The same step on a heap [hc] that extends the heap [h0] of the call,
    when the table [a] holds [P] in key order and lacks the key [k]. *)
Lemma reducer_step options h0 hc a k v i (P : props) :
  heap_ok h0 → val_ok h0 options → options ≠ VUndefined → options ≠ VNull →
  h0 `prefix_of` hc → a < length hc → obj_at hc a = P →
  NoDup P.*1 → k ∉ P.*1 → key_sorted P.*1 → val_ok h0 v →
  reducer options (VRef a) (k, v) i hc =
    Normal (VRef (length hc),
            hc ++ [ P ++ [(k, VRef (S (length hc)))];
                    entry_props (spread_src h0 (defaultFields_of h0 options))
                      k i (spread_src h0 v) ]).
Proof.
  intros Hh0 Hopt Hu Hn Hpre Ha HP HndP HkP HsP Hv.
  assert (∀ w, val_ok h0 w → val_ok hc w ∧ spread_src hc w = spread_src h0 w)
    as Hframe.
  { destruct Hpre as [pre ->]. intros w Hw.
    split; [by apply val_ok_app | by apply spread_src_app]. }
  assert (defaultFields_of hc options = defaultFields_of h0 options) as Hdf.
  { destruct Hpre as [pre ->]. by apply defaultFields_of_app. }
  pose proof (defaultFields_of_ok h0 options Hh0) as Hdfok.
  rewrite reducer_run; try done.
  - rewrite Hdf.
    rewrite (proj2 (Hframe _ Hdfok)), (proj2 (Hframe _ Hv)).
    rewrite HP, own_entries_id, spread_into_nil, set_prop_fresh by done.
    done.
  - by apply Hframe.
  - by apply Hframe.
  - rewrite Hdf. by apply Hframe.
Qed.

(** The fold: started on a table [a] holding [P], the remaining entries
    [rest] are appended in order, each with a fresh entry object. *)
Lemma reduce_run options h0 :
  heap_ok h0 → val_ok h0 options → options ≠ VUndefined → options ≠ VNull →
  ∀ (rest : props) (hc : heap) (a : loc) (i : nat) (P : props),
    h0 `prefix_of` hc → a < length hc → obj_at hc a = P →
    NoDup (P.*1 ++ rest.*1) → key_sorted (P.*1 ++ rest.*1) →
    Forall (λ p, val_ok h0 p.2) rest →
    ∃ (ext : heap) (t : loc) (locs : list loc),
      reduce_from (reducer options) rest i (VRef a) hc
        = Normal (VRef t, hc ++ ext) ∧
      (t = a ∨ length hc ≤ t) ∧ t < length (hc ++ ext) ∧
      obj_at (hc ++ ext) t = P ++ zip rest.*1 (VRef <$> locs) ∧
      length locs = length rest ∧ NoDup locs ∧
      Forall (λ e, length hc ≤ e < length (hc ++ ext)) locs ∧ (t ∉ locs) ∧
      (∀ j k v e, rest !! j = Some (k, v) → locs !! j = Some e →
        obj_at (hc ++ ext) e =
          entry_props (spread_src h0 (defaultFields_of h0 options)) k (i + j)
            (spread_src h0 v)).
Proof.
  intros Hh0 Hopt Hu Hn rest.
  induction rest as [|[k v] rest IH]; intros hc a i P Hpre Ha HP Hnd Hs Hvs.
  - exists [], a, []. rewrite !app_nil_r. simpl.
    split_and!; [done | by left | done | done | done | constructor
                | constructor | apply not_elem_of_nil | done].
  - apply Forall_cons in Hvs as [Hv Hvs]. simpl in Hv.
    assert (NoDup P.*1) as HndP by (by apply NoDup_app in Hnd as (? & _ & _)).
    assert (k ∉ P.*1) as HkP.
    { apply NoDup_app in Hnd as (_ & Hd & _). intros Hin.
      apply (Hd _ Hin). csimpl. left. }
    assert (key_sorted P.*1) as HsP by (by eapply key_sorted_app_l).
    set (O := P ++ [(k, VRef (S (length hc)))]).
    set (E := entry_props (spread_src h0 (defaultFields_of h0 options)) k i
                (spread_src h0 v)).
    assert (reducer options (VRef a) (k, v) i hc
            = Normal (VRef (length hc), hc ++ [O; E])) as Hstep.
    { by apply reducer_step. }
    destruct (IH (hc ++ [O; E]) (length hc) (S i) O) as
      (ext & t & locs & Hrun & Ht & Htlt & Htab & Hlen & Hndl & Hfresh & Htl & Hent).
    { destruct Hpre as [pre ->]. exists (pre ++ [O; E]). by rewrite app_assoc. }
    { rewrite length_app. simpl. lia. }
    { apply obj_at_length. }
    { unfold O. rewrite fmap_app, <-app_assoc. exact Hnd. }
    { unfold O. rewrite fmap_app, <-app_assoc. exact Hs. }
    { done. }
    rewrite length_app in Ht, Hfresh. simpl in Ht, Hfresh.
    exists ([O; E] ++ ext), t, (S (length hc) :: locs).
    rewrite app_assoc.
    assert (length (hc ++ [O; E]) = S (S (length hc))) as HlenOE.
    { rewrite length_app. simpl. lia. }
    split_and!.
    + cbn [reduce_from]. unfold mbind, M_bind. by rewrite Hstep.
    + right. destruct Ht; lia.
    + done.
    + rewrite Htab. unfold O. by rewrite <-app_assoc.
    + simpl. by rewrite Hlen.
    + constructor; [|done].
      intros Hin. rewrite Forall_forall in Hfresh. specialize (Hfresh _ Hin). lia.
    + constructor.
      * rewrite length_app, HlenOE. lia.
      * eapply Forall_impl; [exact Hfresh|]. simpl. intros; lia.
    + apply not_elem_of_cons. split; [|done]. destruct Ht; lia.
    + intros [|j] k' v' e Hr Hl; simpl in Hr, Hl.
      * injection Hr as -> ->. injection Hl as <-.
        rewrite Nat.add_0_r.
        rewrite <-app_assoc. simpl.
        unfold obj_at.
        replace (hc ++ O :: E :: ext) with ((hc ++ [O]) ++ E :: ext)
          by (by rewrite <-app_assoc).
        rewrite list_lookup_middle; [done|]. rewrite length_app. simpl. lia.
      * rewrite (Hent j k' v' e Hr Hl). f_equal. lia.
Qed.

End run_lemmas.

Section createEnum_run.
Implicit Types (h : heap) (obj options v : val).

Lemma heap_ok_alloc_empty h : heap_ok h → heap_ok (h ++ [[]]).
Proof.
  intros Hh. unfold heap_ok in *. apply Forall_app. split.
  - eapply Forall_impl; [exact Hh|]. intros o [Hnd Hvs]. split; [done|].
    eapply Forall_impl; [exact Hvs|]. intros p ?. by apply val_ok_app.
  - repeat constructor.
Qed.

Lemma createEnum_default_options obj h :
  createEnum obj VUndefined h = createEnum obj (VRef (length h)) (h ++ [[]]).
Proof. reflexivity. Qed.

Lemma createEnum_built_given obj options h :
  heap_ok h → val_ok h obj → val_ok h options →
  obj ≠ VUndefined → obj ≠ VNull →
  options ≠ VUndefined → options ≠ VNull →
  ∃ h' t locs,
    createEnum obj options h = Normal (VRef t, h') ∧
    built h (spread_src h obj) (spread_src h (defaultFields_of h options))
      h' t locs.
Proof.
  intros Hh Hobj Hopt Hou Hon Hu Hn.
  destruct (reduce_run options (h ++ [[]]) (heap_ok_alloc_empty h Hh)
              (val_ok_app h [[]] options Hopt) Hu Hn
              (spread_src h obj) (h ++ [[]]) (length h) 0 [])
    as (ext & t & locs & Hrun & Ht & Htlt & Htab & Hlen & Hnd & Hfresh & Htl & Hent).
  { done. }
  { rewrite length_app. simpl. lia. }
  { apply obj_at_length. }
  { simpl. by apply spread_src_NoDup. }
  { simpl. apply spread_src_sorted. }
  { eapply Forall_impl; [by apply spread_src_val_ok|].
    intros p ?. by apply val_ok_app. }
  exists ((h ++ [[]]) ++ ext), t, locs. split.
  - unfold createEnum, mbind, M_bind.
    destruct options; try done; unfold mret, M_ret;
      (destruct obj; try done; exact Hrun).
  - rewrite length_app in Ht, Hfresh. simpl in Ht, Hfresh.
    constructor; try done.
    + exists ([[]] ++ ext). by rewrite app_assoc.
    + split; [destruct Ht; lia | done].
    + eapply Forall_impl; [exact Hfresh|]. simpl. intros; lia.
    + intros i k v e Hes Hl. rewrite (Hent i k v e Hes Hl). simpl.
      rewrite defaultFields_of_app by done.
      rewrite !spread_src_app; [done| |by apply defaultFields_of_ok].
      pose proof (spread_src_val_ok h obj Hh) as Hall.
      rewrite Forall_forall in Hall.
      apply (Hall (k, v)). by eapply list_elem_of_lookup_2.
Qed.

(** A call on an object (or any value but [undefined] and [null]) with
    options other than [null] returns, and leaves the heap [built]. *)
Lemma createEnum_built obj options h :
  heap_ok h → val_ok h obj → val_ok h options →
  obj ≠ VUndefined → obj ≠ VNull → options ≠ VNull →
  ∃ h' t locs,
    createEnum obj options h = Normal (VRef t, h') ∧
    built h (spread_src h obj) (spread_src h (defaultFields_of h options))
      h' t locs.
Proof.
  intros Hh Hobj Hopt Hou Hon Hn.
  destruct (decide (options = VUndefined)) as [->|Hu];
    [|by apply createEnum_built_given].
  rewrite createEnum_default_options.
  destruct (createEnum_built_given obj (VRef (length h)) (h ++ [[]]))
    as (h' & t & locs & Hrun & [Hext Htf Htab Hlen Hnd Hfresh Htl Hent]);
    try done.
  { by apply heap_ok_alloc_empty. }
  { by apply val_ok_app. }
  { simpl. rewrite length_app. simpl. lia. }
  exists h', t, locs. split; [done|].
  rewrite spread_src_app in Htab, Hlen, Hent by done.
  rewrite length_app in Htf, Hfresh. simpl in Htf, Hfresh.
  constructor; try done.
  - destruct Hext as [ext ->]. exists ([[]] ++ ext). by rewrite app_assoc.
  - lia.
  - eapply Forall_impl; [exact Hfresh|]. simpl. intros; lia.
  - intros i k v e Hes Hl. rewrite (Hent i k v e Hes Hl).
    simpl defaultFields_of. rewrite obj_at_length. simpl.
    rewrite spread_src_app; [done|].
    pose proof (spread_src_val_ok h obj Hh) as Hall.
    rewrite Forall_forall in Hall.
    apply (Hall (k, v)). by eapply list_elem_of_lookup_2.
Qed.

End createEnum_run.

Section result_lemmas.
Implicit Types (h : heap) (obj options v : val) (es dfs vs : props).

Lemma get_prop_spread_into acc src f :
  NoDup src.*1 →
  get_prop (spread_into acc src) f =
    match get_prop src f with Some x => Some x | None => get_prop acc f end.
Proof.
  intros Hnd. destruct (get_prop src f) as [x|] eqn:E.
  - by apply get_prop_spread_into_present.
  - apply get_prop_spread_into_absent. by apply get_prop_None.
Qed.

(** The fields of an entry: the entry's own value where it has one, the
    computed [name] and [index] otherwise, the default otherwise. *)
Lemma get_prop_entry_props dfs k i vs f :
  NoDup dfs.*1 → NoDup vs.*1 →
  get_prop (entry_props dfs k i vs) f =
    match get_prop vs f with
    | Some x => Some x
    | None =>
        if decide (f = "index") then Some (VNum (Z.of_nat i))
        else if decide (f = "name") then Some (VStr k)
        else get_prop dfs f
    end.
Proof.
  intros Hd Hv. unfold entry_props.
  rewrite get_prop_spread_into by done.
  destruct (get_prop vs f); [done|].
  rewrite !get_prop_set_prop.
  repeat case_decide; try done.
  rewrite get_prop_spread_into by done. simpl. by destruct (get_prop dfs f).
Qed.

Lemma entry_props_NoDup dfs k i vs : NoDup (entry_props dfs k i vs).*1.
Proof.
  unfold entry_props.
  apply spread_into_NoDup, set_prop_NoDup, set_prop_NoDup, spread_into_NoDup.
  constructor.
Qed.

Lemma get_prop_zip (ks : list string) (xs : list val) i k x :
  NoDup ks → length ks = length xs → ks !! i = Some k → xs !! i = Some x →
  get_prop (zip ks xs) k = Some x.
Proof.
  intros Hnd Hlen Hk Hx. apply get_prop_elem.
  - rewrite fst_zip by lia. done.
  - apply (list_elem_of_lookup_2 _ i). apply lookup_zip_with_Some. eauto.
Qed.

(** [output[k]] is the [i]-th entry object when [k] is the [i]-th key. *)
Lemma built_lookup h es dfs h' t locs i k v :
  built h es dfs h' t locs → NoDup es.*1 → es !! i = Some (k, v) →
  ∃ e, locs !! i = Some e ∧ length h ≤ e < length h' ∧
       own_prop h' (VRef t) k = Some (VRef e) ∧
       obj_at h' e = entry_props dfs k i (spread_src h v).
Proof.
  intros [Hext Htf Htab Hlen Hndl Hfresh Htl Hent] Hnd Hes.
  destruct (lookup_lt_is_Some_2 locs i) as [e He].
  { rewrite Hlen. by eapply lookup_lt_Some. }
  exists e. split; [done|]. split; [|split; [|by eapply Hent]].
  - rewrite Forall_forall in Hfresh. apply Hfresh.
    by eapply list_elem_of_lookup_2.
  - unfold own_prop. simpl. rewrite get_prop_own_entries.
    + rewrite Htab. apply (get_prop_zip _ _ i); [done| | |].
      * by rewrite !length_fmap.
      * by rewrite list_lookup_fmap, Hes.
      * by rewrite list_lookup_fmap, He.
    + rewrite Htab, fst_zip; [done|]. rewrite !length_fmap. lia.
Qed.

(** The keys of the result, in the order of [Object.keys]. *)
Lemma built_keys h es dfs h' t locs :
  built h es dfs h' t locs → key_sorted es.*1 →
  object_keys h' (VRef t) = es.*1.
Proof.
  intros [Hext Htf Htab Hlen Hndl Hfresh Htl Hent] Hs.
  assert ((zip es.*1 (VRef <$> locs)).*1 = es.*1) as Hfst.
  { apply fst_zip. rewrite !length_fmap. lia. }
  unfold object_keys. simpl. rewrite Htab.
  rewrite own_entries_id; by rewrite Hfst.
Qed.

(** The own properties of a built entry object. *)
Lemma own_prop_entry h' e dfs k i vs f :
  obj_at h' e = entry_props dfs k i vs →
  own_prop h' (VRef e) f = get_prop (entry_props dfs k i vs) f.
Proof.
  intros He. unfold own_prop. simpl. rewrite He.
  apply get_prop_own_entries, entry_props_NoDup.
Qed.

(** Old objects are untouched. *)
Lemma prefix_obj_at h h' l : h `prefix_of` h' → l < length h → obj_at h' l = obj_at h l.
Proof. intros [ext ->] ?. by apply obj_at_app_l. Qed.

Lemma prefix_spread_src h h' v :
  h `prefix_of` h' → val_ok h v → spread_src h' v = spread_src h v.
Proof. intros [ext ->] ?. by apply spread_src_app. Qed.

End result_lemmas.

(** ** The heap stays well formed *)

Section heap_ok_preserved.
Implicit Types (h : heap) (obj options v : val) (o : props).

Lemma set_prop_Forall (Q : string * val → Prop) o k v :
  Forall Q o → Q (k, v) → Forall Q (set_prop o k v).
Proof.
  intros Ho Hkv. induction Ho as [|[k' v'] o Hx Ho IH]; simpl.
  - by repeat constructor.
  - case_decide; constructor; done.
Qed.

Lemma spread_into_Forall (Q : string * val → Prop) (acc src : props) :
  Forall Q acc → Forall Q src → Forall Q (spread_into acc src).
Proof.
  intros Hacc Hsrc. revert acc Hacc.
  induction Hsrc as [|[k v] src Hx Hsrc IH]; intros acc Hacc; simpl; [done|].
  unfold spread_into in *. simpl. apply IH. by apply set_prop_Forall.
Qed.

Lemma entry_props_ok h (dfs vs : props) k i :
  Forall (λ p, val_ok h p.2) dfs → Forall (λ p, val_ok h p.2) vs →
  obj_ok h (entry_props dfs k i vs).
Proof.
  intros Hd Hv. split; [apply entry_props_NoDup|].
  unfold entry_props. apply spread_into_Forall; [|done].
  apply set_prop_Forall; [|done]. apply set_prop_Forall; [|done].
  apply spread_into_Forall; [constructor | done].
Qed.

Lemma obj_ok_app h ext o : obj_ok h o → obj_ok (h ++ ext) o.
Proof.
  intros [Hnd Hvs]. split; [done|].
  eapply Forall_impl; [exact Hvs|]. intros p ?. by apply val_ok_app.
Qed.

Lemma heap_ok_alloc h (news : heap) :
  heap_ok h → Forall (obj_ok (h ++ news)) news → heap_ok (h ++ news).
Proof.
  intros Hh Hnews. unfold heap_ok. apply Forall_app. split; [|done].
  eapply Forall_impl; [exact Hh|]. intros o ?. by apply obj_ok_app.
Qed.

(** The fold keeps the heap well formed. *)
Lemma reduce_heap_ok options h0 :
  heap_ok h0 → val_ok h0 options → options ≠ VUndefined → options ≠ VNull →
  ∀ (rest : props) (hc : heap) (a : loc) (i : nat) (P : props),
    h0 `prefix_of` hc → heap_ok hc → a < length hc → obj_at hc a = P →
    NoDup (P.*1 ++ rest.*1) → key_sorted (P.*1 ++ rest.*1) →
    Forall (λ p, val_ok h0 p.2) rest →
    ∀ r h', reduce_from (reducer options) rest i (VRef a) hc = Normal (r, h') →
      heap_ok h'.
Proof.
  intros Hh0 Hopt Hu Hn rest.
  induction rest as [|[k v] rest IH];
    intros hc a i P Hpre Hhc Ha HP Hnd Hs Hvs r h' Hrun.
  - by injection Hrun as <- <-.
  - apply Forall_cons in Hvs as [Hv Hvs]. simpl in Hv.
    assert (NoDup P.*1) as HndP by (by apply NoDup_app in Hnd as (? & _ & _)).
    assert (k ∉ P.*1) as HkP.
    { apply NoDup_app in Hnd as (_ & Hd & _). intros Hin.
      apply (Hd _ Hin). csimpl. left. }
    assert (key_sorted P.*1) as HsP by (by eapply key_sorted_app_l).
    cbn [reduce_from] in Hrun. unfold mbind, M_bind in Hrun.
    rewrite (reducer_step options h0 hc a k v i P) in Hrun by done.
    set (O := P ++ [(k, VRef (S (length hc)))]) in *.
    set (E := entry_props (spread_src h0 (defaultFields_of h0 options)) k i
                (spread_src h0 v)) in *.
    assert (∀ w, val_ok h0 w → val_ok (hc ++ [O; E]) w) as Hmono.
    { destruct Hpre as [pre ->]. intros w Hw. by apply val_ok_app, val_ok_app. }
    apply (IH (hc ++ [O; E]) (length hc) (S i) O) with (r := r); try done.
    + destruct Hpre as [pre ->]. exists (pre ++ [O; E]). by rewrite app_assoc.
    + apply heap_ok_alloc; [done|]. constructor; [|constructor; [|constructor]].
      * pose proof (obj_at_ok hc a Hhc) as [_ HPok]. rewrite HP in HPok.
        split.
        -- unfold O. rewrite fmap_app. apply NoDup_app.
           split_and!; [done| |apply NoDup_singleton].
           intros x Hx ->%list_elem_of_singleton. done.
        -- unfold O. apply Forall_app. split.
           ++ eapply Forall_impl; [exact HPok|]. intros p ?. by apply val_ok_app.
           ++ constructor; [|constructor]. simpl. rewrite length_app. simpl. lia.
      * apply entry_props_ok.
        -- eapply Forall_impl; [by apply spread_src_val_ok|].
           intros p ?. by apply Hmono.
        -- eapply Forall_impl; [by apply spread_src_val_ok|].
           intros p ?. by apply Hmono.
    + rewrite length_app. simpl. lia.
    + apply obj_at_length.
    + unfold O. rewrite fmap_app, <-app_assoc. exact Hnd.
    + unfold O. rewrite fmap_app, <-app_assoc. exact Hs.
Qed.

Lemma createEnum_heap_ok_given obj options h r h' :
  valid_call h obj options → options ≠ VUndefined →
  createEnum obj options h = Normal (r, h') → heap_ok h'.
Proof.
  intros (Hh & Hobj & Hopt & Hou & Hon & Hn) Hu Hrun.
  unfold createEnum, mbind, M_bind in Hrun.
  assert (reduce_from (reducer options) (spread_src h obj) 0 (VRef (length h))
            (h ++ [[]]) = Normal (r, h')) as Hred.
  { destruct options; try done; unfold mret, M_ret in Hrun; by destruct obj. }
  apply (reduce_heap_ok options (h ++ [[]]) (heap_ok_alloc_empty h Hh)
           (val_ok_app h [[]] options Hopt) Hu Hn
           (spread_src h obj) (h ++ [[]]) (length h) 0 []) with (r := r);
    try done.
  - by apply heap_ok_alloc_empty.
  - rewrite length_app. simpl. lia.
  - apply obj_at_length.
  - simpl. by apply spread_src_NoDup.
  - simpl. apply spread_src_sorted.
  - eapply Forall_impl; [by apply spread_src_val_ok|].
    intros p ?. by apply val_ok_app.
Qed.

(** A valid call leaves a well-formed heap, in which its result is a valid
    reference: it can be followed by another call. *)
Lemma createEnum_heap_ok obj options h r h' :
  valid_call h obj options →
  createEnum obj options h = Normal (r, h') →
  heap_ok h' ∧ val_ok h' r.
Proof.
  intros Hvalid Hrun. pose proof Hvalid as (Hh & Hobj & Hopt & Hou & Hon & Hn).
  split.
  - destruct (decide (options = VUndefined)) as [->|Hu].
    + rewrite createEnum_default_options in Hrun.
      apply (createEnum_heap_ok_given obj (VRef (length h)) (h ++ [[]]) r h');
        [|done|done].
      split_and!; try done.
      * by apply heap_ok_alloc_empty.
      * by apply val_ok_app.
      * simpl. rewrite length_app. simpl. lia.
    + by apply (createEnum_heap_ok_given obj options h r h').
  - destruct (createEnum_built obj options h) as (h'' & t & locs & Hrun' & Hb);
      try done.
    rewrite Hrun in Hrun'. injection Hrun' as -> ->. simpl. apply Hb.
Qed.

End heap_ok_preserved.

(** ** Concrete runs *)

Module ExampleRuns.
Import Examples.

Example scenario_A :
  createEnum (VRef 2) VUndefined heapA =
    Normal (VRef 7,
      heapA ++
      [ []; [];
        [("RED", VRef 6)];
        [("name", VStr "RED"); ("index", VNum 0); ("hex", VStr "#F00")];
        [("RED", VRef 6); ("GREEN", VRef 8)];
        [("name", VStr "GREEN"); ("index", VNum 1); ("hex", VStr "#0F0")] ]).
Proof. reflexivity. Qed.

Example scenario_B :
  ∃ h' t v e,
    createEnum (VRef 2) (VRef 4) heapB = Normal (VRef t, h') ∧
    own_prop h' (VRef t) "VIEWER" = Some v ∧
    own_prop h' v "canEdit" = Some (VBool false) ∧
    own_prop h' (VRef t) "EDITOR" = Some e ∧
    own_prop h' e "canEdit" = Some (VBool true).
Proof. by eexists _, _, _, _. Qed.

Example scenario_C :
  ∃ h' t,
    createEnum (VRef 2) VUndefined heapC = Normal (VRef t, h') ∧
    spread_src h' (VRef t) = [("A", VRef 6); ("B", VRef 8)] ∧
    spread_src h' (VRef 6) = [("name", VStr "A"); ("index", VNum 0)] ∧
    spread_src h' (VRef 8) = [("name", VStr "B"); ("index", VNum 1)].
Proof. by eexists _, _. Qed.

(** Array-index keys are enumerated first: [b], written first, gets
    [index] 1. *)
Example numeric_key_first :
  createEnum (VRef 2) VUndefined heap_numeric_key =
    Normal (VRef 7,
      heap_numeric_key ++
      [ []; [];
        [("1", VRef 6)];
        [("name", VStr "1"); ("index", VNum 0)];
        [("1", VRef 6); ("b", VRef 8)];
        [("name", VStr "b"); ("index", VNum 1)] ]).
Proof. reflexivity. Qed.

(** No argument, [null] entries: a TypeError; [null] options are only read
    when there is an entry. *)
Example throws_on_null : createEnum VNull VUndefined [] = Throw_TypeError.
Proof. reflexivity. Qed.

Example throws_on_null_options :
  createEnum (VRef 2) VNull heapA = Throw_TypeError.
Proof. reflexivity. Qed.

Example null_options_unread :
  createEnum (VRef 0) VNull [obj_literal []] = Normal (VRef 1, [[]; []]).
Proof. reflexivity. Qed.

End ExampleRuns.

(** ** The properties of the specification *)

Section claims.
Implicit Types (h : heap) (obj options v : val) (k f : string) (i : nat).

(** Shared first step: a valid call returns a table whose [i]-th key leads
    to an entry object with the fields of [get_prop_entry_props]. *)
Lemma createEnum_entries h obj options :
  valid_call h obj options →
  ∃ h' t,
    createEnum obj options h = Normal (VRef t, h') ∧
    h `prefix_of` h' ∧ length h ≤ t < length h' ∧
    object_keys h' (VRef t) = object_keys h obj ∧
    ∀ i k v, spread_src h obj !! i = Some (k, v) →
      ∃ e, own_prop h' (VRef t) k = Some (VRef e) ∧
           length h ≤ e < length h' ∧ e ≠ t ∧
           obj_at h' e =
             entry_props (spread_src h (defaultFields_of h options)) k i
               (spread_src h v) ∧
           ∀ f, own_prop h' (VRef e) f =
                  match own_prop h v f with
                  | Some x => Some x
                  | None =>
                      if decide (f = "index") then Some (VNum (Z.of_nat i))
                      else if decide (f = "name") then Some (VStr k)
                      else own_prop h (defaultFields_of h options) f
                  end.
Proof.
  intros (Hh & Hobj & Hopt & Hou & Hon & Hn).
  destruct (createEnum_built obj options h) as (h' & t & locs & Hrun & Hb);
    try done.
  exists h', t. split; [done|]. split; [apply Hb|]. split; [apply Hb|].
  split; [eapply built_keys; [exact Hb | apply spread_src_sorted]|].
  intros i k v Hes.
  destruct (built_lookup _ _ _ _ _ _ i k v Hb) as (e & Hl & Hfr & Hk & He);
    [by apply spread_src_NoDup | done |].
  exists e. split_and!; try done; try lia.
  - intros ->. apply (built_table_not_entry _ _ _ _ _ _ Hb).
    by eapply list_elem_of_lookup_2.
  - intros f. rewrite (own_prop_entry _ _ _ _ _ _ _ He).
    apply get_prop_entry_props; by apply spread_src_NoDup.
Qed.

(** C1 (as amended).  Let the keys of the input be [k0..kn-1] in the order
    of [Object.entries] (array-index keys in ascending numeric order, then
    the other keys in definition order).  For every position [i] whose
    entry defines neither [name] nor [index], [output[ki].name === ki] and
    [output[ki].index === i].  When no key of the input object is an array
    index, that order is the definition order. *)
Theorem createEnum_name_index_by_position h obj options :
  valid_call h obj options →
  (∃ h' t,
    createEnum obj options h = Normal (VRef t, h') ∧
    ∀ i k v, spread_src h obj !! i = Some (k, v) →
      own_prop h v "name" = None → own_prop h v "index" = None →
      ∃ e, own_prop h' (VRef t) k = Some (VRef e) ∧
           own_prop h' (VRef e) "name" = Some (VStr k) ∧
           own_prop h' (VRef e) "index" = Some (VNum (Z.of_nat i))) ∧
  (∀ l, obj = VRef l →
     Forall (λ p, array_index p.1 = None) (obj_at h l) →
     spread_src h obj = obj_at h l).
Proof.
  intros Hvalid. split.
  - destruct (createEnum_entries h obj options Hvalid)
      as (h' & t & Hrun & _ & _ & _ & Hent).
    exists h', t. split; [done|]. intros i k v Hes Hname Hindex.
    destruct (Hent i k v Hes) as (e & Hk & _ & _ & _ & Hf).
    exists e. split; [done|]. rewrite !Hf, Hname, Hindex. done.
  - intros l -> Hnone. simpl. apply own_entries_id.
    apply key_sorted_strings. by rewrite Forall_fmap.
Qed.

(** C2 (as amended).  For every field [f] other than [name] and [index]
    that is present in [defaultFields] and absent from entry [k]'s spec,
    [output[k][f]] is [defaultFields[f]]; for every field present in both,
    [output[k][f]] is the entry's own value. *)
Theorem createEnum_default_precedence h obj options :
  valid_call h obj options →
  ∃ h' t,
    createEnum obj options h = Normal (VRef t, h') ∧
    ∀ i k v, spread_src h obj !! i = Some (k, v) →
      ∃ e, own_prop h' (VRef t) k = Some (VRef e) ∧
        ∀ f d, own_prop h (defaultFields_of h options) f = Some d →
          (own_prop h v f = None → f ≠ "name" → f ≠ "index" →
             own_prop h' (VRef e) f = Some d) ∧
          (∀ x, own_prop h v f = Some x → own_prop h' (VRef e) f = Some x).
Proof.
  intros Hvalid.
  destruct (createEnum_entries h obj options Hvalid)
    as (h' & t & Hrun & _ & _ & _ & Hent).
  exists h', t. split; [done|]. intros i k v Hes.
  destruct (Hent i k v Hes) as (e & Hk & _ & _ & _ & Hf).
  exists e. split; [done|]. intros f d Hd. split.
  - intros Hv Hname Hindex. rewrite Hf, Hv.
    by rewrite !decide_False by done.
  - intros x Hx. by rewrite Hf, Hx.
Qed.

(** C3.  The output has the keys of the input, in the same iteration
    order; an empty input gives an empty output. *)
Theorem createEnum_keys h obj options :
  valid_call h obj options →
  ∃ h' t,
    createEnum obj options h = Normal (VRef t, h') ∧
    object_keys h' (VRef t) = object_keys h obj ∧
    (spread_src h obj = [] → spread_src h' (VRef t) = []).
Proof.
  intros Hvalid.
  destruct (createEnum_entries h obj options Hvalid)
    as (h' & t & Hrun & _ & _ & Hkeys & _).
  exists h', t. split; [done|]. split; [done|].
  intros Hempty. unfold object_keys in Hkeys. rewrite Hempty in Hkeys.
  by apply fmap_nil_inv in Hkeys.
Qed.

(** C4.  Where entry [k]'s spec has a field [name] (or [index]), the output
    entry's [name] (or [index]) is the value of the spec, not the key (or
    the position). *)
Theorem createEnum_own_name_index_win h obj options :
  valid_call h obj options →
  ∃ h' t,
    createEnum obj options h = Normal (VRef t, h') ∧
    ∀ i k v, spread_src h obj !! i = Some (k, v) →
      ∃ e, own_prop h' (VRef t) k = Some (VRef e) ∧
        (∀ x, own_prop h v "name" = Some x →
              own_prop h' (VRef e) "name" = Some x) ∧
        (∀ x, own_prop h v "index" = Some x →
              own_prop h' (VRef e) "index" = Some x).
Proof.
  intros Hvalid.
  destruct (createEnum_entries h obj options Hvalid)
    as (h' & t & Hrun & _ & _ & _ & Hent).
  exists h', t. split; [done|]. intros i k v Hes.
  destruct (Hent i k v Hes) as (e & Hk & _ & _ & _ & Hf).
  exists e. split; [done|]. split; intros x Hx; by rewrite Hf, Hx.
Qed.

(** C5.  Whatever [defaultFields] holds under [name] and [index], an entry
    whose spec does not define the field gets the key as [name] and the
    position as [index]; a spec that defines it wins over both. *)
Theorem createEnum_computed_over_defaults h obj options :
  valid_call h obj options →
  ∃ h' t,
    createEnum obj options h = Normal (VRef t, h') ∧
    ∀ i k v, spread_src h obj !! i = Some (k, v) →
      ∃ e, own_prop h' (VRef t) k = Some (VRef e) ∧
        own_prop h' (VRef e) "name"
          = Some (default (VStr k) (own_prop h v "name")) ∧
        own_prop h' (VRef e) "index"
          = Some (default (VNum (Z.of_nat i)) (own_prop h v "index")).
Proof.
  intros Hvalid.
  destruct (createEnum_entries h obj options Hvalid)
    as (h' & t & Hrun & _ & _ & _ & Hent).
  exists h', t. split; [done|]. intros i k v Hes.
  destruct (Hent i k v Hes) as (e & Hk & _ & _ & _ & Hf).
  exists e. split; [done|]. rewrite !Hf.
  split; [by destruct (own_prop h v "name") | by destruct (own_prop h v "index")].
Qed.

(** C6.  An entry whose spec is empty is exactly
    [{...defaultFields, name: k, index: i}], and exactly
    [{name: k, index: i}] when there are no default fields. *)
Theorem createEnum_empty_spec h obj options :
  valid_call h obj options →
  ∃ h' t,
    createEnum obj options h = Normal (VRef t, h') ∧
    ∀ i k v, spread_src h obj !! i = Some (k, v) → spread_src h v = [] →
      ∃ e, own_prop h' (VRef t) k = Some (VRef e) ∧
        obj_at h' e =
          obj_literal (spread_src h (defaultFields_of h options) ++
                       [("name", VStr k); ("index", VNum (Z.of_nat i))]) ∧
        (spread_src h (defaultFields_of h options) = [] →
         obj_at h' e = [("name", VStr k); ("index", VNum (Z.of_nat i))]).
Proof.
  intros Hvalid.
  destruct (createEnum_entries h obj options Hvalid)
    as (h' & t & Hrun & _ & _ & _ & Hent).
  exists h', t. split; [done|]. intros i k v Hes Hempty.
  destruct (Hent i k v Hes) as (e & Hk & _ & _ & He & _).
  exists e. split; [done|]. rewrite He, Hempty. split.
  - unfold entry_props, obj_literal, spread_into. by rewrite foldl_app.
  - intros ->. reflexivity.
Qed.

(** C10.  Precedence goes by the presence of the key: a field the spec
    binds to [undefined] stays [undefined] in the output entry, and stays
    a key of it, whatever [defaultFields] binds it to. *)
Theorem createEnum_undefined_shadows_default h obj options :
  valid_call h obj options →
  ∃ h' t,
    createEnum obj options h = Normal (VRef t, h') ∧
    ∀ i k v f d, spread_src h obj !! i = Some (k, v) →
      own_prop h v f = Some VUndefined →
      own_prop h (defaultFields_of h options) f = Some d → d ≠ VUndefined →
      ∃ e, own_prop h' (VRef t) k = Some (VRef e) ∧
           own_prop h' (VRef e) f = Some VUndefined ∧
           f ∈ object_keys h' (VRef e).
Proof.
  intros Hvalid.
  destruct (createEnum_entries h obj options Hvalid)
    as (h' & t & Hrun & _ & _ & _ & Hent).
  exists h', t. split; [done|]. intros i k v f d Hes Hv Hd _.
  destruct (Hent i k v Hes) as (e & Hk & _ & _ & _ & Hf).
  exists e. split; [done|].
  assert (own_prop h' (VRef e) f = Some VUndefined) as Hout
    by (by rewrite Hf, Hv).
  split; [done|].
  apply get_prop_Some_elem in Hout.
  by apply (list_elem_of_fmap_2 fst _ (f, VUndefined)).
Qed.

End claims.

Section options_and_aliasing.
Implicit Types (h : heap) (obj options v : val) (k f : string) (i : nat).

(** The fold reads the options only through [options.defaultFields]. *)
Lemma reduce_options_irrelevant o1 o2 h0 :
  heap_ok h0 → val_ok h0 o1 → val_ok h0 o2 →
  o1 ≠ VUndefined → o1 ≠ VNull → o2 ≠ VUndefined → o2 ≠ VNull →
  defaultFields_of h0 o1 = defaultFields_of h0 o2 →
  ∀ (rest : props) (hc : heap) (a : loc) (i : nat) (P : props),
    h0 `prefix_of` hc → a < length hc → obj_at hc a = P →
    NoDup (P.*1 ++ rest.*1) → key_sorted (P.*1 ++ rest.*1) →
    Forall (λ p, val_ok h0 p.2) rest →
    reduce_from (reducer o1) rest i (VRef a) hc
      = reduce_from (reducer o2) rest i (VRef a) hc.
Proof.
  intros Hh0 Ho1 Ho2 Hu1 Hn1 Hu2 Hn2 Hdf rest.
  induction rest as [|[k v] rest IH]; intros hc a i P Hpre Ha HP Hnd Hs Hvs;
    [done|].
  apply Forall_cons in Hvs as [Hv Hvs]. simpl in Hv.
  assert (NoDup P.*1) as HndP by (by apply NoDup_app in Hnd as (? & _ & _)).
  assert (k ∉ P.*1) as HkP.
  { apply NoDup_app in Hnd as (_ & Hd & _). intros Hin.
    apply (Hd _ Hin). csimpl. left. }
  assert (key_sorted P.*1) as HsP by (by eapply key_sorted_app_l).
  cbn [reduce_from]. unfold mbind, M_bind.
  rewrite (reducer_step o1 h0 hc a k v i P) by done.
  rewrite (reducer_step o2 h0 hc a k v i P) by done.
  rewrite Hdf.
  apply (IH _ _ _ (P ++ [(k, VRef (S (length hc)))])).
  - destruct Hpre as [pre ->]. eexists. by rewrite <-app_assoc.
  - rewrite length_app. simpl. lia.
  - apply obj_at_length.
  - rewrite fmap_app, <-app_assoc. exact Hnd.
  - rewrite fmap_app, <-app_assoc. exact Hs.
  - done.
Qed.

(** C9.  Two options objects with the same [defaultFields] member give the
    same result: the call returns, and the table and the whole heap it
    leaves are the same, whatever else the options hold. *)
Theorem createEnum_only_reads_defaultFields h obj o1 o2 :
  valid_call h obj o1 → valid_call h obj o2 →
  o1 ≠ VUndefined → o2 ≠ VUndefined →
  defaultFields_of h o1 = defaultFields_of h o2 →
  createEnum obj o1 h = createEnum obj o2 h ∧
  ∃ h' t, createEnum obj o1 h = Normal (VRef t, h').
Proof.
  intros Hvalid1 Hvalid2 Hu1 Hu2 Hdf. split.
  - destruct Hvalid1 as (Hh & Hobj & Ho1 & Hou & Hon & Hn1).
    destruct Hvalid2 as (_ & _ & Ho2 & _ & _ & Hn2).
    assert (∀ o, o ≠ VUndefined →
              createEnum obj o h =
                reduce_from (reducer o) (spread_src h obj) 0 (VRef (length h))
                  (h ++ [[]])) as Hunfold.
    { intros o Ho. unfold createEnum, mbind, M_bind.
      destruct o; try done; unfold mret, M_ret; by destruct obj. }
    rewrite !Hunfold by done.
    apply (reduce_options_irrelevant o1 o2 (h ++ [[]]) (heap_ok_alloc_empty h Hh))
      with (P := []); try done.
    + by apply val_ok_app.
    + by apply val_ok_app.
    + by rewrite !defaultFields_of_app.
    + rewrite length_app. simpl. lia.
    + apply obj_at_length.
    + simpl. by apply spread_src_NoDup.
    + simpl. apply spread_src_sorted.
    + eapply Forall_impl; [by apply spread_src_val_ok|].
      intros p ?. by apply val_ok_app.
  - destruct (createEnum_entries h obj o1 Hvalid1) as (h' & t & Hrun & _).
    by exists h', t.
Qed.

(** C8.  Every output entry is an object allocated by the call: it is not
    an object of the heap before the call (so neither the entry's spec, nor
    [defaultFields], nor the input), it is not the table, and two entries
    are two objects.  The values of the spec's fields are copied as they
    are, so a nested object is the same object, and it is unchanged. *)
Theorem createEnum_fresh_entries h obj options :
  valid_call h obj options →
  ∃ h' t,
    createEnum obj options h = Normal (VRef t, h') ∧
    (∀ i k v, spread_src h obj !! i = Some (k, v) →
      ∃ e, own_prop h' (VRef t) k = Some (VRef e) ∧
        length h ≤ e < length h' ∧
        VRef e ≠ v ∧ VRef e ≠ defaultFields_of h options ∧
        VRef e ≠ obj ∧ e ≠ t ∧
        (∀ j k' v' e', spread_src h obj !! j = Some (k', v') →
           own_prop h' (VRef t) k' = Some (VRef e') → i ≠ j → e ≠ e') ∧
        (∀ f x, own_prop h v f = Some x →
           own_prop h' (VRef e) f = Some x ∧
           spread_src h' x = spread_src h x)) ∧
    (∀ l, l < length h → obj_at h' l = obj_at h l).
Proof.
  intros Hvalid.
  pose proof Hvalid as (Hh & Hobj & Hopt & Hou & Hon & Hn).
  destruct (createEnum_built obj options h) as (h' & t & locs & Hrun & Hb);
    try done.
  pose proof (spread_src_NoDup h obj Hh) as Hnd.
  pose proof (spread_src_val_ok h obj Hh) as Hvs.
  rewrite Forall_forall in Hvs.
  exists h', t. split; [done|]. split.
  - intros i k v Hes.
    destruct (built_lookup _ _ _ _ _ _ i k v Hb Hnd Hes)
      as (e & Hl & Hfr & Hk & He).
    assert (val_ok h v) as Hv.
    { apply (Hvs (k, v)). by eapply list_elem_of_lookup_2. }
    exists e. split; [done|]. split; [done|].
    split; [|split; [|split; [|split; [|split]]]].
    + intros <-. simpl in Hv. lia.
    + intros Heq. pose proof (defaultFields_of_ok h options Hh) as Hd.
      rewrite <-Heq in Hd. simpl in Hd. lia.
    + intros <-. simpl in Hobj. lia.
    + intros ->. apply (built_table_not_entry _ _ _ _ _ _ Hb).
      by eapply list_elem_of_lookup_2.
    + intros j k' v' e' Hes' Hk' Hij ->.
      destruct (built_lookup _ _ _ _ _ _ j k' v' Hb Hnd Hes')
        as (e'' & Hl' & _ & Hk'' & _).
      rewrite Hk' in Hk''. injection Hk'' as <-.
      apply Hij. eapply NoDup_lookup; [apply Hb|done..].
    + intros f x Hx. split.
      * rewrite (own_prop_entry _ _ _ _ _ _ _ He).
        rewrite get_prop_entry_props by (by apply spread_src_NoDup).
        unfold own_prop in Hx. by rewrite Hx.
      * apply prefix_spread_src; [apply Hb|].
        eapply get_prop_val_ok; [|exact Hx]. by apply spread_src_val_ok.
  - intros l Hl. apply prefix_obj_at; [apply Hb|done].
Qed.

End options_and_aliasing.

Section rel_props_lemmas.
Context (R : val → val → Prop).
Implicit Types (p q : props) (k : string).

Lemma rel_props_keys p q : rel_props R p q → p.*1 = q.*1.
Proof.
  induction 1 as [|x y p q [Hk _] _ IH]; [done|]. csimpl. by rewrite Hk, IH.
Qed.

Lemma rel_set_prop p q k v w :
  rel_props R p q → R v w → rel_props R (set_prop p k v) (set_prop q k w).
Proof.
  intros Hpq Hvw.
  induction Hpq as [|[k1 x] [k2 y] p q [Hk Hxy] Hpq IH]; simpl in *.
  - by repeat constructor.
  - subst k2. case_decide; constructor; done.
Qed.

Lemma rel_spread_into acc1 acc2 s1 s2 :
  rel_props R s1 s2 → rel_props R acc1 acc2 →
  rel_props R (spread_into acc1 s1) (spread_into acc2 s2).
Proof.
  intros Hs. revert acc1 acc2.
  induction Hs as [|[k1 x] [k2 y] s1 s2 [Hk Hxy] _ IH]; intros acc1 acc2 Hacc;
    [done|].
  simpl in *. subst k2. unfold spread_into in *. simpl.
  apply IH. by apply rel_set_prop.
Qed.

Lemma rel_string_props p q :
  rel_props R p q → rel_props R (string_props p) (string_props q).
Proof.
  unfold string_props.
  induction 1 as [|[k1 x] [k2 y] p q [Hk Hxy] _ IH]; [constructor|].
  simpl in *. subst k2.
  destruct (decide (array_index k1 = None)) as [E|E].
  - rewrite !filter_cons_True by done. by constructor.
  - by rewrite !filter_cons_False by done.
Qed.

Lemma rel_index_props p q :
  rel_props R p q → rel_indexed R (index_props p) (index_props q).
Proof.
  unfold index_props.
  induction 1 as [|[k1 x] [k2 y] p q [Hk Hxy] _ IH]; [constructor|].
  simpl in *. subst k2. csimpl.
  destruct (array_index k1); csimpl; [|done]. by constructor.
Qed.

Lemma rel_insert_index n a b l1 l2 :
  a.1 = b.1 → R a.2 b.2 → rel_indexed R l1 l2 →
  rel_indexed R (insert_index n a l1) (insert_index n b l2).
Proof.
  intros Hk Hab Hl.
  induction Hl as [|[m1 x] [m2 y] l1 l2 (Hm & Hxk & Hxy) Hl IH]; simpl in *.
  - by repeat constructor.
  - subst m2. case_decide.
    + constructor; [done|]. by constructor.
    + by constructor.
Qed.

Lemma rel_sort_index l1 l2 :
  rel_indexed R l1 l2 → rel_indexed R (sort_index l1) (sort_index l2).
Proof.
  induction 1 as [|[m1 x] [m2 y] l1 l2 (Hm & Hxk & Hxy) Hl IH]; simpl in *;
    [constructor|].
  subst m2. by apply rel_insert_index.
Qed.

Lemma rel_own_entries p q :
  rel_props R p q → rel_props R (own_entries p) (own_entries q).
Proof.
  intros Hpq. unfold own_entries. apply Forall2_app.
  - apply Forall2_fmap.
    eapply Forall2_impl; [by apply rel_sort_index, rel_index_props|].
    intros x y (_ & Hk & Hxy). done.
  - by apply rel_string_props.
Qed.

Lemma rel_entry_props dfs1 dfs2 vs1 vs2 k i :
  R (VStr k) (VStr k) → R (VNum (Z.of_nat i)) (VNum (Z.of_nat i)) →
  rel_props R dfs1 dfs2 → rel_props R vs1 vs2 →
  rel_props R (entry_props dfs1 k i vs1) (entry_props dfs2 k i vs2).
Proof.
  intros Hk Hi Hd Hv. unfold entry_props.
  apply rel_spread_into; [done|].
  apply rel_set_prop; [|done]. apply rel_set_prop; [|done].
  apply rel_spread_into; [done | constructor].
Qed.

Lemma rel_get_prop p q k :
  rel_props R p q → option_Forall2 R (get_prop p k) (get_prop q k).
Proof.
  induction 1 as [|[k1 x] [k2 y] p q [Hk Hxy] _ IH]; simpl in *;
    [constructor|].
  subst k2. case_decide; [by constructor | done].
Qed.

End rel_props_lemmas.

Section deep_eq_lemmas.
Implicit Types (h : heap) (v : val) (p q : props).

Lemma Forall2_impl_Forall {A B} (P Q : A → B → Prop) (F : A → Prop)
    (G : B → Prop) (l : list A) (k : list B) :
  Forall2 P l k → Forall F l → Forall G k →
  (∀ x y, F x → G y → P x y → Q x y) → Forall2 Q l k.
Proof.
  intros HP. induction HP as [|x y l k Hxy _ IH]; [constructor|].
  intros [? ?]%Forall_cons [? ?]%Forall_cons HPQ. constructor; auto.
Qed.

Lemma deep_eq_prim n h1 h2 v : (∀ l, v ≠ VRef l) → deep_eq n h1 h2 v v.
Proof. intros Hv. destruct n, v; try done; by destruct (Hv l). Qed.

Lemma deep_eq_mono n h1 h2 v1 v2 :
  deep_eq (S n) h1 h2 v1 v2 → deep_eq n h1 h2 v1 v2.
Proof.
  revert v1 v2. induction n as [|n IH]; intros v1 v2;
    destruct v1, v2; try done.
  cbn [deep_eq]. intros Hrel.
  eapply Forall2_impl; [exact Hrel|].
  intros x y [Hk Hxy]. split; [done|]. by apply IH.
Qed.

(** Structural equality of valid values does not depend on the objects
    allocated later. *)
Lemma deep_eq_frame n h1 h2 h1' h2' v1 v2 :
  heap_ok h1 → heap_ok h2 → h1 `prefix_of` h1' → h2 `prefix_of` h2' →
  val_ok h1 v1 → val_ok h2 v2 →
  deep_eq n h1 h2 v1 v2 → deep_eq n h1' h2' v1 v2.
Proof.
  intros Hh1 Hh2 Hp1 Hp2. revert v1 v2.
  induction n as [|n IH]; intros v1 v2 Hv1 Hv2;
    destruct v1 as [| | | | | |l1], v2 as [| | | | | |l2]; try done.
  cbn [deep_eq]. simpl in Hv1, Hv2.
  rewrite (prefix_obj_at h1 h1'), (prefix_obj_at h2 h2') by done.
  intros Hrel.
  eapply (Forall2_impl_Forall _ _ (λ x, val_ok h1 x.2) (λ y, val_ok h2 y.2));
    [exact Hrel | | |].
  - by apply (spread_src_val_ok h1 (VRef l1)).
  - by apply (spread_src_val_ok h2 (VRef l2)).
  - intros x y Hx Hy [Hk Hxy]. split; [done|]. by apply IH.
Qed.

Lemma rel_props_frame n h1 h2 h1' h2' p q :
  heap_ok h1 → heap_ok h2 → h1 `prefix_of` h1' → h2 `prefix_of` h2' →
  Forall (λ x, val_ok h1 x.2) p → Forall (λ y, val_ok h2 y.2) q →
  rel_props (deep_eq n h1 h2) p q → rel_props (deep_eq n h1' h2') p q.
Proof.
  intros Hh1 Hh2 Hp1 Hp2 Hp Hq Hrel.
  eapply (Forall2_impl_Forall _ _ (λ x, val_ok h1 x.2) (λ y, val_ok h2 y.2));
    [exact Hrel | exact Hp | exact Hq |].
  intros x y Hx Hy [Hk Hxy]. split; [done|].
  by apply (deep_eq_frame n h1 h2).
Qed.

Lemma rel_string_chars n h1 h2 i s :
  rel_props (deep_eq n h1 h2) (string_chars i s) (string_chars i s).
Proof.
  revert i. induction s as [|c s IH]; intros i; simpl; [constructor|].
  constructor; [|apply IH]. split; [done|]. by apply deep_eq_prim.
Qed.

(** Structurally equal values spread the same properties. *)
Lemma deep_eq_spread n h1 h2 v1 v2 :
  deep_eq (S n) h1 h2 v1 v2 →
  rel_props (deep_eq n h1 h2) (spread_src h1 v1) (spread_src h2 v2).
Proof.
  destruct v1, v2; try done; cbn [deep_eq spread_src];
    try (intros _; constructor).
  intros [= ->]. apply rel_string_chars.
Qed.

(** Structurally equal options have structurally equal [defaultFields]. *)
Lemma deep_eq_defaultFields n h1 h2 o1 o2 :
  heap_ok h1 → heap_ok h2 → deep_eq (S n) h1 h2 o1 o2 →
  deep_eq n h1 h2 (defaultFields_of h1 o1) (defaultFields_of h2 o2).
Proof.
  intros Hh1 Hh2.
  destruct o1 as [| | | | | |l1], o2 as [| | | | | |l2]; try done;
    cbn [deep_eq defaultFields_of]; try (intros _; by apply deep_eq_prim).
  intros Hrel. apply (rel_get_prop _ _ _ "defaultFields") in Hrel.
  rewrite !get_prop_own_entries in Hrel by (by apply obj_at_ok).
  destruct Hrel; simpl; [done | by apply deep_eq_prim].
Qed.

Lemma built_own_entries h es dfs h' t locs :
  built h es dfs h' t locs → key_sorted es.*1 →
  spread_src h' (VRef t) = zip es.*1 (VRef <$> locs).
Proof.
  intros Hb Hs. simpl. rewrite (built_table _ _ _ _ _ _ Hb).
  apply own_entries_id. rewrite fst_zip; [done|].
  rewrite !length_fmap. pose proof (built_length _ _ _ _ _ _ Hb). lia.
Qed.

(** Two calls on inputs equal down to depth [n] give tables equal down to
    depth [n]. *)
Lemma built_deep_eq n h1 h2 obj1 obj2 df1 df2 h1' t1 locs1 h2' t2 locs2 :
  heap_ok h1 → heap_ok h2 → val_ok h1 df1 → val_ok h2 df2 →
  built h1 (spread_src h1 obj1) (spread_src h1 df1) h1' t1 locs1 →
  built h2 (spread_src h2 obj2) (spread_src h2 df2) h2' t2 locs2 →
  deep_eq n h1 h2 obj1 obj2 → deep_eq (pred n) h1 h2 df1 df2 →
  deep_eq n h1' h2' (VRef t1) (VRef t2).
Proof.
  intros Hh1 Hh2 Hdf1 Hdf2 Hb1 Hb2 Hobj Hdf.
  destruct n as [|m]; [done|]. cbn [deep_eq].
  change (own_entries (obj_at h1' t1)) with (spread_src h1' (VRef t1)).
  change (own_entries (obj_at h2' t2)) with (spread_src h2' (VRef t2)).
  rewrite (built_own_entries _ _ _ _ _ _ Hb1), (built_own_entries _ _ _ _ _ _ Hb2)
    by apply spread_src_sorted.
  apply deep_eq_spread in Hobj.
  pose proof (rel_props_keys _ _ _ Hobj) as Hkeys.
  pose proof (Forall2_length _ _ _ Hobj) as Hlen.
  pose proof (built_length _ _ _ _ _ _ Hb1) as Hlen1.
  pose proof (built_length _ _ _ _ _ _ Hb2) as Hlen2.
  apply Forall2_same_length_lookup_2.
  { rewrite !length_zip_with_l_eq; rewrite !length_fmap; lia. }
  intros i [k1 x1] [k2 x2].
  intros (? & ? & [= <- <-] & Hk1 & Hx1)%lookup_zip_with_Some.
  intros (? & ? & [= <- <-] & Hk2 & Hx2)%lookup_zip_with_Some.
  rewrite Hkeys in Hk1. rewrite Hk1 in Hk2. injection Hk2 as <-.
  split; [done|]. simpl.
  apply list_lookup_fmap_Some_1 in Hx1 as (e1 & -> & He1).
  apply list_lookup_fmap_Some_1 in Hx2 as (e2 & -> & He2).
  destruct m as [|p]; [done|]. cbn [deep_eq].
  apply list_lookup_fmap_Some_1 in Hk1 as ([k2 v2] & Heq & Hes2).
  simpl in Heq. subst k2.
  destruct (Forall2_lookup_r _ _ _ i (k1, v2) Hobj Hes2)
    as ([k1' v1] & Hes1 & Hk & Hv).
  simpl in Hk, Hv. subst k1'.
  rewrite (built_entries _ _ _ _ _ _ Hb1 i k1 v1 e1 Hes1 He1).
  rewrite (built_entries _ _ _ _ _ _ Hb2 i k1 v2 e2 Hes2 He2).
  pose proof (spread_src_val_ok h1 obj1 Hh1) as Hall1.
  pose proof (spread_src_val_ok h2 obj2 Hh2) as Hall2.
  rewrite Forall_forall in Hall1, Hall2.
  apply rel_own_entries, rel_entry_props.
  - by apply deep_eq_prim.
  - by apply deep_eq_prim.
  - apply (rel_props_frame p h1 h2); try done;
      [apply Hb1 | apply Hb2 | by apply spread_src_val_ok
      | by apply spread_src_val_ok | by apply deep_eq_spread].
  - apply (rel_props_frame p h1 h2); try done;
      [apply Hb1 | apply Hb2 | by apply spread_src_val_ok
      | by apply spread_src_val_ok | by apply deep_eq_spread].
Qed.

Lemma deep_eq_refl n h v : deep_eq n h h v v.
Proof.
  revert v. induction n as [|n IH]; intros v; destruct v; try done.
  cbn [deep_eq]. apply Forall_Forall2_diag, Forall_forall.
  intros x _. split; [done | apply IH].
Qed.

(** X3.  Calling twice: the second call, run after the first on the same
    arguments, returns another table, structurally equal to the first, and
    leaves the first table and its entries as they were. *)
Lemma createEnum_twice h obj options :
  valid_call h obj options →
  ∃ h' t1 h'' t2,
    createEnum obj options h = Normal (VRef t1, h') ∧
    createEnum obj options h' = Normal (VRef t2, h'') ∧
    struct_eq h' h'' (VRef t1) (VRef t2) ∧ t1 ≠ t2 ∧
    (∀ l, l < length h' → obj_at h'' l = obj_at h' l).
Proof.
  intros Hvalid. pose proof Hvalid as (Hh & Hobj & Hopt & Hou & Hon & Hn).
  destruct (createEnum_built obj options h) as (h' & t1 & locs1 & Hrun1 & Hb1);
    try done.
  destruct (createEnum_heap_ok obj options h _ _ Hvalid Hrun1) as [Hh' _].
  pose proof (built_extends _ _ _ _ _ _ Hb1) as Hpre.
  assert (∀ w, val_ok h w → val_ok h' w) as Hmono.
  { destruct Hpre as [ext ->]. intros w. apply val_ok_app. }
  destruct (createEnum_built obj options h') as (h'' & t2 & locs2 & Hrun2 & Hb2);
    try done; try (by apply Hmono).
  exists h', t1, h'', t2. split_and!; [done | done | | |].
  - intros n.
    apply (built_deep_eq n h h' obj obj
             (defaultFields_of h options) (defaultFields_of h' options)
             h' t1 locs1 h'' t2 locs2); try done.
    + by apply defaultFields_of_ok.
    + by apply defaultFields_of_ok.
    + apply (deep_eq_frame n h h); try done. apply deep_eq_refl.
    + destruct Hpre as [ext ->]. rewrite defaultFields_of_app by done.
      apply (deep_eq_frame _ h h); try done.
      * by eexists.
      * by apply defaultFields_of_ok.
      * by apply defaultFields_of_ok.
      * apply deep_eq_refl.
  - pose proof (built_table_fresh _ _ _ _ _ _ Hb1).
    pose proof (built_table_fresh _ _ _ _ _ _ Hb2). lia.
  - intros l Hl. apply prefix_obj_at; [apply Hb2 | done].
Qed.

(** C7.  Two calls on structurally equal entries and options return
    structurally equal tables, and each call leaves every object of its
    heap (the entries mapping, every entry spec, the options and
    [defaultFields]) as it was. *)
Theorem createEnum_pure h1 h2 obj1 obj2 o1 o2 :
  valid_call h1 obj1 o1 → valid_call h2 obj2 o2 →
  struct_eq h1 h2 obj1 obj2 → struct_eq h1 h2 o1 o2 →
  ∃ h1' t1 h2' t2,
    createEnum obj1 o1 h1 = Normal (VRef t1, h1') ∧
    createEnum obj2 o2 h2 = Normal (VRef t2, h2') ∧
    struct_eq h1' h2' (VRef t1) (VRef t2) ∧
    (∀ l, l < length h1 → obj_at h1' l = obj_at h1 l) ∧
    (∀ l, l < length h2 → obj_at h2' l = obj_at h2 l).
Proof.
  intros (Hh1 & Hobj1 & Hopt1 & Hou1 & Hon1 & Hn1)
         (Hh2 & Hobj2 & Hopt2 & Hou2 & Hon2 & Hn2) Hobj Hopt.
  destruct (createEnum_built obj1 o1 h1) as (h1' & t1 & locs1 & Hrun1 & Hb1);
    try done.
  destruct (createEnum_built obj2 o2 h2) as (h2' & t2 & locs2 & Hrun2 & Hb2);
    try done.
  exists h1', t1, h2', t2. split_and!; [done | done | | |].
  - intros n.
    apply (built_deep_eq n h1 h2 obj1 obj2
             (defaultFields_of h1 o1) (defaultFields_of h2 o2)
             h1' t1 locs1 h2' t2 locs2); try done.
    + by apply defaultFields_of_ok.
    + by apply defaultFields_of_ok.
    + destruct n as [|m]; cbn [Nat.pred].
      * apply (deep_eq_defaultFields 0); [done..|]. apply Hopt.
      * apply (deep_eq_defaultFields m); [done..|]. apply Hopt.
  - intros l Hl. apply prefix_obj_at; [apply Hb1 | done].
  - intros l Hl. apply prefix_obj_at; [apply Hb2 | done].
Qed.

End deep_eq_lemmas.

(** ** The theorems at concrete calls *)

(** C1 as stated fails: in [createEnum({b: {}, 1: {}})] the key [b] is
    first in definition order and its spec defines neither [name] nor
    [index], yet [output.b.index] is not 0 (it is 1). *)
Lemma createEnum_index_definition_order_cex :
  valid_call Examples.heap_numeric_key (VRef 2) VUndefined ∧
  obj_at Examples.heap_numeric_key 2 !! 0 = Some ("b", VRef 0) ∧
  own_prop Examples.heap_numeric_key (VRef 0) "name" = None ∧
  own_prop Examples.heap_numeric_key (VRef 0) "index" = None ∧
  ¬ ∃ h' t e,
      createEnum (VRef 2) VUndefined Examples.heap_numeric_key
        = Normal (VRef t, h') ∧
      own_prop h' (VRef t) "b" = Some (VRef e) ∧
      own_prop h' (VRef e) "name" = Some (VStr "b") ∧
      own_prop h' (VRef e) "index" = Some (VNum 0).
Proof.
  split; [by_computation|]. split; [reflexivity|]. split; [reflexivity|].
  split; [reflexivity|].
  intros (h' & t & e & Hrun & Hk & _ & Hindex).
  rewrite ExampleRuns.numeric_key_first in Hrun. injection Hrun as <- <-.
  vm_compute in Hk. injection Hk as <-.
  vm_compute in Hindex. discriminate Hindex.
Qed.

(** C2 as stated fails for the fields [name] and [index]: in
    [createEnum({A: {}}, {defaultFields: {name: "x", ...}})] the field
    [name] is in [defaultFields] and not in the spec of [A], yet
    [output.A.name] is not ["x"] (it is ["A"]). *)
Lemma createEnum_default_name_cex :
  valid_call Examples.heap_default_name (VRef 1) (VRef 3) ∧
  spread_src Examples.heap_default_name (VRef 1) !! 0 = Some ("A", VRef 0) ∧
  own_prop Examples.heap_default_name
    (defaultFields_of Examples.heap_default_name (VRef 3)) "name"
    = Some (VStr "x") ∧
  own_prop Examples.heap_default_name (VRef 0) "name" = None ∧
  ¬ ∃ h' t e,
      createEnum (VRef 1) (VRef 3) Examples.heap_default_name
        = Normal (VRef t, h') ∧
      own_prop h' (VRef t) "A" = Some (VRef e) ∧
      own_prop h' (VRef e) "name" = Some (VStr "x").
Proof.
  split; [by_computation|]. split; [reflexivity|]. split; [reflexivity|].
  split; [reflexivity|].
  intros (h' & t & e & Hrun & Hk & Hname).
  vm_compute in Hrun. injection Hrun as <- <-.
  vm_compute in Hk. injection Hk as <-.
  vm_compute in Hname. discriminate Hname.
Qed.

Lemma createEnum_name_index_by_position_witness :
  valid_call Examples.heapA (VRef 2) VUndefined ∧
  ∃ h' t e,
    createEnum (VRef 2) VUndefined Examples.heapA = Normal (VRef t, h') ∧
    own_prop h' (VRef t) "GREEN" = Some (VRef e) ∧
    own_prop h' (VRef e) "name" = Some (VStr "GREEN") ∧
    own_prop h' (VRef e) "index" = Some (VNum 1).
Proof.
  split; [by_computation|].
  destruct (createEnum_name_index_by_position Examples.heapA (VRef 2) VUndefined)
    as [(h' & t & Hrun & Hent) _]; [by_computation|].
  destruct (Hent 1 "GREEN" (VRef 1)) as (e & Hk & Hname & Hindex);
    [reflexivity..|].
  exists h', t, e. repeat split; assumption.
Defined.

Lemma createEnum_default_precedence_witness :
  valid_call Examples.heapB (VRef 2) (VRef 4) ∧
  ∃ h' t v e,
    createEnum (VRef 2) (VRef 4) Examples.heapB = Normal (VRef t, h') ∧
    own_prop h' (VRef t) "VIEWER" = Some (VRef v) ∧
    own_prop h' (VRef v) "canEdit" = Some (VBool false) ∧
    own_prop h' (VRef t) "EDITOR" = Some (VRef e) ∧
    own_prop h' (VRef e) "canEdit" = Some (VBool true).
Proof.
  split; [by_computation|].
  destruct (createEnum_default_precedence Examples.heapB (VRef 2) (VRef 4))
    as (h' & t & Hrun & Hent); [by_computation|].
  destruct (Hent 0 "VIEWER" (VRef 0)) as (v & Hv & Hvf); [reflexivity|].
  destruct (Hent 1 "EDITOR" (VRef 1)) as (e & He & Hef); [reflexivity|].
  destruct (Hvf "canEdit" (VBool false)) as [Hdefault _]; [reflexivity|].
  destruct (Hef "canEdit" (VBool false)) as [_ Hown]; [reflexivity|].
  exists h', t, v, e. repeat split; try assumption.
  - apply Hdefault; [reflexivity | discriminate | discriminate].
  - apply Hown. reflexivity.
Defined.

Lemma createEnum_keys_witness :
  valid_call Examples.heapA (VRef 2) VUndefined ∧
  ∃ h' t,
    createEnum (VRef 2) VUndefined Examples.heapA = Normal (VRef t, h') ∧
    object_keys h' (VRef t) = ["RED"; "GREEN"].
Proof.
  split; [by_computation|].
  destruct (createEnum_keys Examples.heapA (VRef 2) VUndefined)
    as (h' & t & Hrun & Hkeys & _); [by_computation|].
  exists h', t. split; assumption.
Defined.

Lemma createEnum_own_name_index_win_witness :
  valid_call Examples.heap_own_name (VRef 1) VUndefined ∧
  ∃ h' t e,
    createEnum (VRef 1) VUndefined Examples.heap_own_name = Normal (VRef t, h') ∧
    own_prop h' (VRef t) "A" = Some (VRef e) ∧
    own_prop h' (VRef e) "name" = Some (VStr "custom") ∧
    own_prop h' (VRef e) "index" = Some (VNum 7).
Proof.
  split; [by_computation|].
  destruct (createEnum_own_name_index_win Examples.heap_own_name (VRef 1) VUndefined)
    as (h' & t & Hrun & Hent); [by_computation|].
  destruct (Hent 0 "A" (VRef 0)) as (e & Hk & Hname & Hindex); [reflexivity|].
  exists h', t, e. repeat split; try assumption.
  - apply Hname. reflexivity.
  - apply Hindex. reflexivity.
Defined.

Lemma createEnum_computed_over_defaults_witness :
  valid_call Examples.heap_default_name (VRef 1) (VRef 3) ∧
  ∃ h' t e,
    createEnum (VRef 1) (VRef 3) Examples.heap_default_name
      = Normal (VRef t, h') ∧
    own_prop h' (VRef t) "A" = Some (VRef e) ∧
    own_prop h' (VRef e) "name" = Some (VStr "A") ∧
    own_prop h' (VRef e) "index" = Some (VNum 0).
Proof.
  split; [by_computation|].
  destruct (createEnum_computed_over_defaults Examples.heap_default_name
              (VRef 1) (VRef 3)) as (h' & t & Hrun & Hent); [by_computation|].
  destruct (Hent 0 "A" (VRef 0)) as (e & Hk & Hname & Hindex); [reflexivity|].
  exists h', t, e. repeat split; assumption.
Defined.

Lemma createEnum_empty_spec_witness :
  valid_call Examples.heap_default_name (VRef 1) (VRef 3) ∧
  ∃ h' t e,
    createEnum (VRef 1) (VRef 3) Examples.heap_default_name
      = Normal (VRef t, h') ∧
    own_prop h' (VRef t) "A" = Some (VRef e) ∧
    obj_at h' e = [("name", VStr "A"); ("index", VNum 0); ("unit", VStr "m")].
Proof.
  split; [by_computation|].
  destruct (createEnum_empty_spec Examples.heap_default_name (VRef 1) (VRef 3))
    as (h' & t & Hrun & Hent); [by_computation|].
  destruct (Hent 0 "A" (VRef 0)) as (e & Hk & He & _); [reflexivity..|].
  exists h', t, e. repeat split; assumption.
Defined.

Lemma createEnum_undefined_shadows_default_witness :
  valid_call Examples.heap_undefined_field (VRef 1) (VRef 3) ∧
  ∃ h' t e,
    createEnum (VRef 1) (VRef 3) Examples.heap_undefined_field
      = Normal (VRef t, h') ∧
    own_prop h' (VRef t) "A" = Some (VRef e) ∧
    own_prop h' (VRef e) "f" = Some VUndefined ∧
    "f" ∈ object_keys h' (VRef e).
Proof.
  split; [by_computation|].
  destruct (createEnum_undefined_shadows_default Examples.heap_undefined_field
              (VRef 1) (VRef 3)) as (h' & t & Hrun & Hent); [by_computation|].
  destruct (Hent 0 "A" (VRef 0) "f" (VNum 1)) as (e & Hk & Hf & Hin);
    [reflexivity | reflexivity | reflexivity | discriminate |].
  exists h', t, e. repeat split; assumption.
Defined.

Lemma createEnum_only_reads_defaultFields_witness :
  valid_call Examples.heap_nested (VRef 2) (VRef 4) ∧
  valid_call Examples.heap_nested (VRef 2) (VRef 5) ∧
  defaultFields_of Examples.heap_nested (VRef 4)
    = defaultFields_of Examples.heap_nested (VRef 5) ∧
  createEnum (VRef 2) (VRef 4) Examples.heap_nested
    = createEnum (VRef 2) (VRef 5) Examples.heap_nested.
Proof.
  split; [by_computation|]. split; [by_computation|]. split; [reflexivity|].
  apply (createEnum_only_reads_defaultFields Examples.heap_nested (VRef 2)
           (VRef 4) (VRef 5));
    [by_computation | by_computation | discriminate | discriminate | reflexivity].
Defined.

Lemma createEnum_fresh_entries_witness :
  valid_call Examples.heap_nested (VRef 2) (VRef 4) ∧
  ∃ h' t e,
    createEnum (VRef 2) (VRef 4) Examples.heap_nested = Normal (VRef t, h') ∧
    own_prop h' (VRef t) "A" = Some (VRef e) ∧
    length Examples.heap_nested ≤ e ∧ e ≠ t ∧
    own_prop h' (VRef e) "tags" = Some (VRef 0) ∧
    obj_at h' 0 = obj_at Examples.heap_nested 0.
Proof.
  split; [by_computation|].
  destruct (createEnum_fresh_entries Examples.heap_nested (VRef 2) (VRef 4))
    as (h' & t & Hrun & Hent & Hold); [by_computation|].
  destruct (Hent 0 "A" (VRef 1))
    as (e & Hk & [Hfresh _] & _ & _ & _ & Het & _ & Hshared); [reflexivity|].
  destruct (Hshared "tags" (VRef 0)) as [Htags _]; [reflexivity|].
  exists h', t, e. repeat split; try assumption.
  apply Hold. vm_compute. repeat constructor.
Defined.

Lemma createEnum_pure_witness :
  valid_call Examples.heapB (VRef 2) (VRef 4) ∧
  valid_call Examples.heapB_moved (VRef 1) (VRef 0) ∧
  struct_eq Examples.heapB Examples.heapB_moved (VRef 2) (VRef 1) ∧
  struct_eq Examples.heapB Examples.heapB_moved (VRef 4) (VRef 0) ∧
  ∃ h1' t1 h2' t2,
    createEnum (VRef 2) (VRef 4) Examples.heapB = Normal (VRef t1, h1') ∧
    createEnum (VRef 1) (VRef 0) Examples.heapB_moved = Normal (VRef t2, h2') ∧
    struct_eq h1' h2' (VRef t1) (VRef t2) ∧
    obj_at h1' 2 = obj_at Examples.heapB 2.
Proof.
  assert (struct_eq Examples.heapB Examples.heapB_moved (VRef 2) (VRef 1))
    as Hobj.
  { intros n. destruct n as [|[|[|n]]]; repeat deep_eq_step deep_eq_prim. }
  assert (struct_eq Examples.heapB Examples.heapB_moved (VRef 4) (VRef 0))
    as Hopt.
  { intros n. destruct n as [|[|[|n]]]; repeat deep_eq_step deep_eq_prim. }
  split; [by_computation|]. split; [by_computation|].
  split; [exact Hobj|]. split; [exact Hopt|].
  destruct (createEnum_pure Examples.heapB Examples.heapB_moved
              (VRef 2) (VRef 1) (VRef 4) (VRef 0))
    as (h1' & t1 & h2' & t2 & Hrun1 & Hrun2 & Heq & Hold1 & _);
    [by_computation | by_computation | exact Hobj | exact Hopt |].
  exists h1', t1, h2', t2. repeat split; try assumption.
  apply Hold1. vm_compute. repeat constructor.
Defined.

(** * Further properties of the code *)

(** ** Array methods on pure callbacks *)

Section array_lemmas.
Implicit Types (h : heap) (l : list val) (p : val → M val) (r : val → val).

Lemma get_member_run v f h :
  v ≠ VUndefined → v ≠ VNull → get_member v f h = Normal (member_of h v f, h).
Proof. by destruct v. Qed.

Lemma array_find_pure p l h r :
  (∀ x, x ∈ l → p x h = Normal (r x, h)) →
  array_find p l h =
    Normal (from_option snd VUndefined
              (list_find (λ x, to_boolean (r x) = true) l), h).
Proof.
  induction l as [|x l IH]; intros Hp; [done|].
  cbn [array_find list_find]. unfold mbind at 1, M_bind at 1.
  rewrite (Hp x) by left.
  destruct (to_boolean (r x)) eqn:E.
  - by rewrite decide_True.
  - rewrite decide_False by (by intros ?).
    rewrite IH by (intros y Hy; apply Hp; by right).
    by destruct (list_find _ l) as [[]|].
Qed.

Lemma array_map_pure p l h r :
  (∀ x, x ∈ l → p x h = Normal (r x, h)) →
  array_map p l h = Normal (r <$> l, h).
Proof.
  induction l as [|x l IH]; intros Hp; [done|].
  cbn [array_map]. unfold mbind, M_bind.
  rewrite (Hp x) by left.
  by rewrite IH by (intros y Hy; apply Hp; by right).
Qed.

Lemma array_filter_pure p l h r :
  (∀ x, x ∈ l → p x h = Normal (r x, h)) →
  array_filter p l h =
    Normal (filter (λ x, to_boolean (r x) = true) l, h).
Proof.
  induction l as [|x l IH]; intros Hp; [done|].
  cbn [array_filter]. unfold mbind, M_bind.
  rewrite (Hp x) by left.
  rewrite IH by (intros y Hy; apply Hp; by right).
  unfold mret, M_ret. rewrite filter_cons.
  destruct (to_boolean (r x)) eqn:E.
  - by rewrite decide_True.
  - by rewrite decide_False by (by intros ?).
Qed.

End array_lemmas.

(** ** The values of a built table *)

Section table_lemmas.
Implicit Types (h : heap) (obj options v : val) (k f : string) (i : nat).

(** [Object.values] of the result lists the entry objects in the order of
    the input's entries; reading a field of an entry never throws. *)
Lemma createEnum_values h obj options :
  valid_call h obj options →
  ∃ h' t locs,
    createEnum obj options h = Normal (VRef t, h') ∧
    h `prefix_of` h' ∧
    object_values (VRef t) h' = Normal (VRef <$> locs, h') ∧
    length locs = length (spread_src h obj) ∧ NoDup locs ∧
    ∀ i k v, spread_src h obj !! i = Some (k, v) →
      ∃ e, locs !! i = Some e ∧
           own_prop h' (VRef t) k = Some (VRef e) ∧
           (∀ f, member_of h' (VRef e) f
                   = default VUndefined (own_prop h' (VRef e) f)) ∧
           (∀ f, own_prop h' (VRef e) f =
                   match own_prop h v f with
                   | Some x => Some x
                   | None =>
                       if decide (f = "index") then Some (VNum (Z.of_nat i))
                       else if decide (f = "name") then Some (VStr k)
                       else own_prop h (defaultFields_of h options) f
                   end).
Proof.
  intros (Hh & Hobj & Hopt & Hou & Hon & Hn).
  destruct (createEnum_built obj options h) as (h' & t & locs & Hrun & Hb);
    try done.
  exists h', t, locs. split; [done|]. split; [apply Hb|].
  split; [|split; [apply Hb|split; [apply Hb|]]].
  - unfold object_values.
    rewrite (built_own_entries _ _ _ _ _ _ Hb) by apply spread_src_sorted.
    rewrite snd_zip; [done|].
    rewrite !length_fmap. pose proof (built_length _ _ _ _ _ _ Hb). lia.
  - intros i k v Hes.
    destruct (built_lookup _ _ _ _ _ _ i k v Hb) as (e & Hl & Hfr & Hk & He);
      [by apply spread_src_NoDup | done |].
    exists e. split; [done|]. split; [done|]. split.
    + intros f. unfold own_prop. simpl.
      rewrite get_prop_own_entries; [done|]. rewrite He.
      apply entry_props_NoDup.
    + intros f. rewrite (own_prop_entry _ _ _ _ _ _ _ He).
      apply get_prop_entry_props; by apply spread_src_NoDup.
Qed.

Lemma member_of_merged h h' options v e k i f :
  (∀ f, member_of h' (VRef e) f = default VUndefined (own_prop h' (VRef e) f)) →
  (∀ f, own_prop h' (VRef e) f =
          match own_prop h v f with
          | Some x => Some x
          | None =>
              if decide (f = "index") then Some (VNum (Z.of_nat i))
              else if decide (f = "name") then Some (VStr k)
              else own_prop h (defaultFields_of h options) f
          end) →
  f ≠ "name" → f ≠ "index" →
  member_of h' (VRef e) f = merged_field h (defaultFields_of h options) v f.
Proof.
  intros Hm Hf Hname Hindex. rewrite Hm, Hf. unfold merged_field.
  destruct (own_prop h v f); [done|]. by rewrite !decide_False by done.
Qed.

(** [Object.values(table).find(p)] for a callback [p] that tests the field
    [f] of an entry: the first entry, in the order of the input's entries,
    whose merged field passes the test; [undefined] when there is none. *)
Lemma table_find h obj options f (p : val → M val) (g : val → val) :
  valid_call h obj options → f ≠ "name" → f ≠ "index" →
  ∃ h' t,
    createEnum obj options h = Normal (VRef t, h') ∧
    ((∀ e, p (VRef e) h' = Normal (g (member_of h' (VRef e) f), h')) →
     let find := (vs ← object_values (VRef t); array_find p vs) h' in
     let test v :=
       to_boolean (g (merged_field h (defaultFields_of h options) v f)) in
     (∀ i k v, spread_src h obj !! i = Some (k, v) → test v = true →
        (∀ j k' v', j < i → spread_src h obj !! j = Some (k', v') →
           test v' = false) →
        ∃ e, own_prop h' (VRef t) k = Some (VRef e) ∧
             find = Normal (VRef e, h')) ∧
     ((∀ j k' v', spread_src h obj !! j = Some (k', v') → test v' = false) →
        find = Normal (VUndefined, h'))).
Proof.
  intros Hvalid Hname Hindex.
  destruct (createEnum_values h obj options Hvalid)
    as (h' & t & locs & Hrun & _ & Hvals & Hlen & _ & Hent).
  exists h', t. split; [done|]. intros Hp find test.
  set (r := λ y, g (member_of h' y f)).
  assert (find = Normal (from_option snd VUndefined
            (list_find (λ x, to_boolean (r x) = true) (VRef <$> locs)), h'))
    as Hfind.
  { unfold find, mbind, M_bind. rewrite Hvals.
    apply array_find_pure. intros y (e & -> & _)%list_elem_of_fmap. apply Hp. }
  assert (∀ j k' v' e', spread_src h obj !! j = Some (k', v') →
            locs !! j = Some e' → to_boolean (r (VRef e')) = test v') as Htest.
  { intros j k' v' e' Hes' Hl'.
    destruct (Hent j k' v' Hes') as (e'' & Hl'' & _ & Hm & Hf).
    rewrite Hl' in Hl''. injection Hl'' as <-.
    unfold r, test. by rewrite (member_of_merged h h' options v' e' k' j f). }
  split.
  - intros i k v Hes Hv Hfirst.
    destruct (Hent i k v Hes) as (e & Hl & Hk & _).
    exists e. split; [done|]. rewrite Hfind.
    assert (list_find (λ x, to_boolean (r x) = true) (VRef <$> locs)
            = Some (i, VRef e)) as ->; [|done].
    apply list_find_Some. split; [by rewrite list_lookup_fmap, Hl|]. split.
    + by rewrite (Htest i k v e).
    + intros j y Hy Hj.
      apply list_lookup_fmap_Some_1 in Hy as (e' & -> & Hl').
      destruct (lookup_lt_is_Some_2 (spread_src h obj) j) as [[k' v'] Hes'].
      { apply lookup_lt_Some in Hl'. lia. }
      rewrite (Htest j k' v' e' Hes' Hl'), (Hfirst j k' v' Hj Hes'). done.
  - intros Hnone. rewrite Hfind.
    assert (list_find (λ x, to_boolean (r x) = true) (VRef <$> locs) = None)
      as ->; [|done].
    apply list_find_None, Forall_forall.
    intros y (e' & -> & [j Hl']%list_elem_of_lookup_1)%list_elem_of_fmap.
    destruct (lookup_lt_is_Some_2 (spread_src h obj) j) as [[k' v'] Hes'].
    { apply lookup_lt_Some in Hl'. lia. }
    rewrite (Htest j k' v' e' Hes' Hl'), (Hnone j k' v' Hes'). done.
Qed.

End table_lemmas.

(** ** The documented callers on a built table *)

Section callers.
Implicit Types (h : heap) (obj options v : val) (k f : string) (i : nat).

(** X7.  On a table built by [createEnum], [getLogLevelByValue(value)]
    returns the entry object of the first key, in the order of the input's
    entries, whose [value] field (the spec's own, else the default) is
    [value], and [undefined] when no entry has it; it does not throw and
    changes nothing. *)
Theorem getLogLevelByValue_finds_first h obj options :
  valid_call h obj options →
  ∃ h' t,
    createEnum obj options h = Normal (VRef t, h') ∧
    ∀ value,
      let value_of v := merged_field h (defaultFields_of h options) v "value" in
      (∀ i k v, spread_src h obj !! i = Some (k, v) → value_of v = value →
         (∀ j k' v', j < i → spread_src h obj !! j = Some (k', v') →
            value_of v' ≠ value) →
         ∃ e, own_prop h' (VRef t) k = Some (VRef e) ∧
              getLogLevelByValue (VRef t) value h' = Normal (VRef e, h')) ∧
      ((∀ j k' v', spread_src h obj !! j = Some (k', v') → value_of v' ≠ value) →
         getLogLevelByValue (VRef t) value h' = Normal (VUndefined, h')).
Proof.
  intros Hvalid.
  destruct (createEnum_values h obj options Hvalid) as (h' & t & _ & Hrun & _).
  exists h', t. split; [done|]. intros value value_of.
  destruct (table_find h obj options "value"
              (λ level, x ← get_member level "value";
                        mret (VBool (strict_eq x value)))
              (λ x, VBool (strict_eq x value)) Hvalid)
    as (h2 & t2 & Hrun2 & Hfind); [done | done |].
  rewrite Hrun in Hrun2. injection Hrun2 as <- <-.
  destruct Hfind as [Hfirst Hnone]; [done|].
  split.
  - intros i k v Hes Hv Hbefore.
    apply (Hfirst i k v Hes).
    + simpl. unfold strict_eq. by apply bool_decide_eq_true.
    + intros j k' v' Hj Hes'. simpl. unfold strict_eq.
      apply bool_decide_eq_false. by apply (Hbefore j k' v').
  - intros Hno. apply Hnone. intros j k' v' Hes'. simpl. unfold strict_eq.
    apply bool_decide_eq_false. by apply (Hno j k' v').
Qed.

(** X8.  On a table built by [createEnum], [LOG_LEVEL_VALUES] is the list of
    the entries' [value] fields (the spec's own, else the default, else
    [undefined]) in the order of the input's entries. *)
Theorem LOG_LEVEL_VALUES_in_order h obj options :
  valid_call h obj options →
  ∃ h' t,
    createEnum obj options h = Normal (VRef t, h') ∧
    LOG_LEVEL_VALUES (VRef t) h' =
      Normal ((λ p, merged_field h (defaultFields_of h options) p.2 "value")
                <$> spread_src h obj, h').
Proof.
  intros Hvalid.
  destruct (createEnum_values h obj options Hvalid)
    as (h' & t & locs & Hrun & _ & Hvals & Hlen & _ & Hent).
  exists h', t. split; [done|].
  unfold LOG_LEVEL_VALUES, mbind, M_bind. rewrite Hvals.
  rewrite (array_map_pure _ _ h' (λ y, member_of h' y "value")).
  - do 2 f_equal. apply list_eq. intros i.
    rewrite !list_lookup_fmap.
    destruct (spread_src h obj !! i) as [[k v]|] eqn:Hes; simpl.
    + destruct (Hent i k v Hes) as (e & Hl & _ & Hm & Hf). rewrite Hl. simpl.
      f_equal. by apply (member_of_merged h h' options v e k i).
    + apply lookup_ge_None in Hes. rewrite lookup_ge_None_2; [done|]. lia.
  - intros y (e & -> & _)%list_elem_of_fmap. reflexivity.
Qed.

(** X9.  On a table built by [createEnum], [cancelableStatuses] holds, in
    the order of [Object.values], exactly the entry objects whose
    [canCancel] field (the spec's own, else the default) is truthy. *)
Theorem cancelableStatuses_selects_truthy h obj options :
  valid_call h obj options →
  ∃ h' t values selected,
    createEnum obj options h = Normal (VRef t, h') ∧
    object_values (VRef t) h' = Normal (values, h') ∧
    cancelableStatuses (VRef t) h' = Normal (selected, h') ∧
    selected `sublist_of` values ∧
    ∀ i k v, spread_src h obj !! i = Some (k, v) →
      ∃ e, own_prop h' (VRef t) k = Some (VRef e) ∧
           (VRef e ∈ selected ↔
            to_boolean
              (merged_field h (defaultFields_of h options) v "canCancel") = true).
Proof.
  intros Hvalid.
  destruct (createEnum_values h obj options Hvalid)
    as (h' & t & locs & Hrun & _ & Hvals & Hlen & _ & Hent).
  set (P := λ y, to_boolean (member_of h' y "canCancel") = true).
  exists h', t, (VRef <$> locs), (filter P (VRef <$> locs)).
  split; [done|]. split; [done|]. split; [|split].
  - unfold cancelableStatuses, mbind, M_bind. rewrite Hvals.
    apply (array_filter_pure _ _ h' (λ y, member_of h' y "canCancel")).
    intros y (e & -> & _)%list_elem_of_fmap. reflexivity.
  - apply sublist_filter.
  - intros i k v Hes.
    destruct (Hent i k v Hes) as (e & Hl & Hk & Hm & Hf).
    exists e. split; [done|].
    rewrite list_elem_of_filter. unfold P.
    rewrite (member_of_merged h h' options v e k i) by done.
    split; [by intros [? _]|]. intros Ht. split; [done|].
    apply list_elem_of_fmap_2. by eapply list_elem_of_lookup_2.
Qed.

(** X10.  On a table built by [createEnum], [getDefault()] returns the entry
    object of the first key whose [isDefault] field (the spec's own, else
    the default) is truthy, and [undefined] when there is none. *)
Theorem getDefault_finds_first_truthy h obj options :
  valid_call h obj options →
  ∃ h' t,
    createEnum obj options h = Normal (VRef t, h') ∧
    let is_default v :=
      to_boolean (merged_field h (defaultFields_of h options) v "isDefault") in
    (∀ i k v, spread_src h obj !! i = Some (k, v) → is_default v = true →
       (∀ j k' v', j < i → spread_src h obj !! j = Some (k', v') →
          is_default v' = false) →
       ∃ e, own_prop h' (VRef t) k = Some (VRef e) ∧
            getDefault (VRef t) h' = Normal (VRef e, h')) ∧
    ((∀ j k' v', spread_src h obj !! j = Some (k', v') → is_default v' = false) →
       getDefault (VRef t) h' = Normal (VUndefined, h')).
Proof.
  intros Hvalid.
  destruct (table_find h obj options "isDefault"
              (λ d, get_member d "isDefault") (λ x, x) Hvalid)
    as (h' & t & Hrun & Hfind); [done | done |].
  exists h', t. split; [done|]. apply Hfind. done.
Qed.

End callers.

(** ** Errors, invariants and composition of [createEnum] *)

Section more_createEnum.
Implicit Types (h : heap) (obj options v : val) (k f : string) (i : nat).

Lemma reducer_null_options acc k v i h :
  reducer VNull (VRef acc) (k, v) i h = Throw_TypeError.
Proof.
  unfold reducer, mbind, M_bind, new_object.
  by rewrite copy_data_properties_run.
Qed.

(** X1.  [createEnum] throws a TypeError exactly when the first argument is
    [undefined] or [null], or the options are [null] and the input has at
    least one entry; [null] options with an input without entries are never
    read. *)
Theorem createEnum_throws_iff h obj options :
  heap_ok h → val_ok h obj → val_ok h options →
  createEnum obj options h = Throw_TypeError ↔
    obj = VUndefined ∨ obj = VNull ∨
    (options = VNull ∧ spread_src h obj ≠ []).
Proof.
  intros Hh Hobj Hopt. split.
  - intros Hthrow.
    destruct (decide (obj = VUndefined)) as [|Hou]; [by left|].
    destruct (decide (obj = VNull)) as [|Hon]; [by right; left|].
    right; right.
    destruct (decide (options = VNull)) as [->|Hn].
    + split; [done|]. intros Hempty.
      unfold createEnum, mbind, M_bind in Hthrow.
      destruct obj; try done; simpl in Hthrow, Hempty;
        by rewrite Hempty in Hthrow.
    + destruct (createEnum_built obj options h) as (h' & t & locs & Hrun & _);
        try done.
      by rewrite Hrun in Hthrow.
  - intros [->|[->|[-> Hne]]].
    + by destruct options.
    + by destruct options.
    + destruct (spread_src h obj) as [|[k v] es] eqn:Hes; [done|].
      unfold createEnum, mbind, M_bind.
      destruct obj; try done; simpl in Hes; simpl; rewrite Hes;
        cbn [reduce_from]; unfold mbind, M_bind;
        by rewrite reducer_null_options.
Qed.

(** X2.  A valid call leaves a well-formed heap in which its arguments are
    still valid and its result is a valid first argument: calls can be
    chained, on the same input or on the table just built. *)
Theorem createEnum_result_is_valid_input h obj options :
  valid_call h obj options →
  ∃ h' t,
    createEnum obj options h = Normal (VRef t, h') ∧
    heap_ok h' ∧ valid_call h' obj options ∧ valid_call h' (VRef t) options.
Proof.
  intros Hvalid. pose proof Hvalid as (Hh & Hobj & Hopt & Hou & Hon & Hn).
  destruct (createEnum_built obj options h) as (h' & t & locs & Hrun & Hb);
    try done.
  destruct (createEnum_heap_ok obj options h _ _ Hvalid Hrun) as [Hh' Ht].
  assert (∀ w, val_ok h w → val_ok h' w) as Hmono.
  { destruct (built_extends _ _ _ _ _ _ Hb) as [ext ->].
    intros w. apply val_ok_app. }
  exists h', t. split; [done|]. split; [done|].
  split; split_and!; try done; by apply Hmono.
Qed.

(** X4.  Applying [createEnum] to a table it built keeps the keys and every
    field of every entry, [name] and [index] included: the entries of the
    first table already carry them, and an entry's own fields win.  The
    second options can only add default fields the entries lack. *)
Theorem createEnum_reapplied_keeps_fields h obj o1 o2 :
  valid_call h obj o1 → val_ok h o2 → o2 ≠ VNull →
  ∃ h' t h'' t2,
    createEnum obj o1 h = Normal (VRef t, h') ∧
    createEnum (VRef t) o2 h' = Normal (VRef t2, h'') ∧
    object_keys h'' (VRef t2) = object_keys h obj ∧
    ∀ i k v, spread_src h obj !! i = Some (k, v) →
      ∃ e e2,
        own_prop h' (VRef t) k = Some (VRef e) ∧
        own_prop h'' (VRef t2) k = Some (VRef e2) ∧ e2 ≠ e ∧
        own_prop h'' (VRef e2) "name" = own_prop h' (VRef e) "name" ∧
        own_prop h'' (VRef e2) "index" = own_prop h' (VRef e) "index" ∧
        ∀ f, own_prop h'' (VRef e2) f =
               match own_prop h' (VRef e) f with
               | Some x => Some x
               | None => own_prop h' (defaultFields_of h' o2) f
               end.
Proof.
  intros Hvalid Ho2 Hn2.
  pose proof Hvalid as (Hh & Hobj & Hopt & Hou & Hon & Hn).
  destruct (createEnum_built obj o1 h) as (h' & t & locs & Hrun & Hb);
    try done.
  destruct (createEnum_heap_ok obj o1 h _ _ Hvalid Hrun) as [Hh' Ht].
  assert (valid_call h' (VRef t) o2) as Hvalid2.
  { split_and!; try done.
    destruct (built_extends _ _ _ _ _ _ Hb) as [ext ->]. by apply val_ok_app. }
  destruct (createEnum_entries h' (VRef t) o2 Hvalid2)
    as (h'' & t2 & Hrun2 & _ & _ & Hkeys2 & Hent2).
  pose proof (built_own_entries _ _ _ _ _ _ Hb (spread_src_sorted h obj))
    as Htab.
  exists h', t, h'', t2. split; [done|]. split; [done|]. split.
  - rewrite Hkeys2. unfold object_keys. rewrite Htab.
    apply fst_zip. rewrite !length_fmap.
    pose proof (built_length _ _ _ _ _ _ Hb). lia.
  - intros i k v Hes.
    destruct (built_lookup _ _ _ _ _ _ i k v Hb) as (e & Hl & Hfr & Hk & He);
      [by apply spread_src_NoDup | done |].
    assert (spread_src h' (VRef t) !! i = Some (k, VRef e)) as Hes2.
    { rewrite Htab. apply lookup_zip_with_Some. exists k, (VRef e).
      split; [done|]. split.
      - by rewrite list_lookup_fmap, Hes.
      - rewrite list_lookup_fmap. exact (f_equal (fmap VRef) Hl). }
    destruct (Hent2 i k (VRef e) Hes2) as (e2 & Hk2 & Hfr2 & _ & _ & Hf2).
    assert (∀ f, own_prop h' (VRef e) f =
              match own_prop h v f with
              | Some x => Some x
              | None =>
                  if decide (f = "index") then Some (VNum (Z.of_nat i))
                  else if decide (f = "name") then Some (VStr k)
                  else own_prop h (defaultFields_of h o1) f
              end) as Hf1.
    { intros f. rewrite (own_prop_entry _ _ _ _ _ _ _ He).
      apply get_prop_entry_props; by apply spread_src_NoDup. }
    assert (∀ f, own_prop h'' (VRef e2) f =
              match own_prop h' (VRef e) f with
              | Some x => Some x
              | None => own_prop h' (defaultFields_of h' o2) f
              end) as Hf.
    { intros f. rewrite Hf2.
      destruct (own_prop h' (VRef e) f) eqn:E; [done|].
      rewrite Hf1 in E. destruct (own_prop h v f); [done|].
      repeat case_decide; done. }
    exists e, e2. split; [done|]. split; [done|]. split; [lia|].
    split; [|split; [|done]].
    + rewrite Hf, Hf1. destruct (own_prop h v "name"); [done|].
      by repeat case_decide.
    + rewrite Hf, Hf1. destruct (own_prop h v "index"); [done|].
      by repeat case_decide.
Qed.

(** X5.  When the default fields, [name], [index] and the fields of an
    entry's spec are pairwise distinct and none is an array index,
    [Object.entries] of the output entry lists the default fields, then
    [name], then [index], then the spec's fields, each group in its own
    order. *)
Theorem createEnum_entry_key_order h obj options :
  valid_call h obj options →
  ∃ h' t,
    createEnum obj options h = Normal (VRef t, h') ∧
    ∀ i k v, spread_src h obj !! i = Some (k, v) →
      let dfs := spread_src h (defaultFields_of h options) in
      let vs := spread_src h v in
      NoDup (dfs.*1 ++ "name" :: "index" :: vs.*1) →
      Forall (λ key, array_index key = None) (dfs.*1 ++ vs.*1) →
      ∃ e, own_prop h' (VRef t) k = Some (VRef e) ∧
           spread_src h' (VRef e) =
             dfs ++ ("name", VStr k) :: ("index", VNum (Z.of_nat i)) :: vs.
Proof.
  intros Hvalid.
  destruct (createEnum_entries h obj options Hvalid)
    as (h' & t & Hrun & _ & _ & _ & Hent).
  exists h', t. split; [done|]. intros i k v Hes dfs vs Hnd Hnone.
  destruct (Hent i k v Hes) as (e & Hk & _ & _ & He & _).
  exists e. split; [done|]. simpl. rewrite He.
  fold dfs. fold vs.
  assert (entry_props dfs k i vs =
            dfs ++ ("name", VStr k) :: ("index", VNum (Z.of_nat i)) :: vs) as ->.
  { unfold entry_props.
    apply NoDup_app in Hnd as (Hd & Hdisj & Hrest).
    apply NoDup_cons in Hrest as [Hname Hrest].
    apply NoDup_cons in Hrest as [Hindex Hv].
    rewrite spread_into_nil by done.
    rewrite (set_prop_fresh dfs "name").
    2:{ intros Hin. apply (Hdisj _ Hin). left. }
    rewrite (set_prop_fresh _ "index").
    2:{ rewrite fmap_app. intros [Hin|Hin]%elem_of_app.
        - apply (Hdisj _ Hin). right. left.
        - apply list_elem_of_singleton in Hin. done. }
    rewrite spread_into_app_fresh.
    - by rewrite <-!app_assoc.
    - rewrite !fmap_app, <-!app_assoc. simpl.
      apply NoDup_app. split; [done|]. split.
      + intros x Hx. apply Hdisj in Hx. done.
      + constructor; [done|]. by constructor. }
  apply own_entries_id, key_sorted_strings.
  rewrite fmap_app. csimpl.
  apply Forall_app in Hnone as [Hd Hv].
  apply Forall_app. split; [done|].
  constructor; [done|]. by constructor.
Qed.

(** X6.  [index] is the position in the output: [Object.values(output)] has
    one entry object per input entry, the [i]-th one is [output[ki]], and
    where the spec does not define [index] its [index] field is [i]. *)
Theorem createEnum_index_is_position_in_values h obj options :
  valid_call h obj options →
  ∃ h' t values,
    createEnum obj options h = Normal (VRef t, h') ∧
    object_values (VRef t) h' = Normal (values, h') ∧
    length values = length (spread_src h obj) ∧
    ∀ i k v, spread_src h obj !! i = Some (k, v) →
      ∃ e, values !! i = Some (VRef e) ∧
           own_prop h' (VRef t) k = Some (VRef e) ∧
           (own_prop h v "index" = None →
            own_prop h' (VRef e) "index" = Some (VNum (Z.of_nat i))).
Proof.
  intros Hvalid.
  destruct (createEnum_values h obj options Hvalid)
    as (h' & t & locs & Hrun & _ & Hvals & Hlen & _ & Hent).
  exists h', t, (VRef <$> locs). split; [done|]. split; [done|].
  split; [by rewrite length_fmap|].
  intros i k v Hes. destruct (Hent i k v Hes) as (e & Hl & Hk & _ & Hf).
  exists e. split; [by rewrite list_lookup_fmap, Hl|]. split; [done|].
  intros Hindex. by rewrite Hf, Hindex.
Qed.

End more_createEnum.

(** ** The further properties at concrete calls *)

Lemma createEnum_throws_iff_witness :
  heap_ok Examples.heapA ∧ val_ok Examples.heapA (VRef 2) ∧
  val_ok Examples.heapA VNull ∧
  createEnum (VRef 2) VNull Examples.heapA = Throw_TypeError.
Proof.
  split; [by_computation|]. split; [by_computation|]. split; [exact I|].
  apply (createEnum_throws_iff Examples.heapA (VRef 2) VNull);
    [by_computation | by_computation | exact I |].
  right. right. split; [reflexivity|]. vm_compute. discriminate.
Defined.

Lemma createEnum_result_is_valid_input_witness :
  valid_call Examples.heapA (VRef 2) VUndefined ∧
  ∃ h' t,
    createEnum (VRef 2) VUndefined Examples.heapA = Normal (VRef t, h') ∧
    valid_call h' (VRef t) VUndefined.
Proof.
  split; [by_computation|].
  destruct (createEnum_result_is_valid_input Examples.heapA (VRef 2) VUndefined)
    as (h' & t & Hrun & _ & _ & Hvalid); [by_computation|].
  exists h', t. split; assumption.
Defined.

Lemma createEnum_twice_witness :
  valid_call Examples.heapA (VRef 2) VUndefined ∧
  ∃ h' t1 h'' t2,
    createEnum (VRef 2) VUndefined Examples.heapA = Normal (VRef t1, h') ∧
    createEnum (VRef 2) VUndefined h' = Normal (VRef t2, h'') ∧
    struct_eq h' h'' (VRef t1) (VRef t2) ∧ t1 ≠ t2.
Proof.
  split; [by_computation|].
  destruct (createEnum_twice Examples.heapA (VRef 2) VUndefined)
    as (h' & t1 & h'' & t2 & Hrun1 & Hrun2 & Heq & Hne & _); [by_computation|].
  exists h', t1, h'', t2. repeat split; assumption.
Defined.

Lemma createEnum_reapplied_keeps_fields_witness :
  valid_call Examples.heapB (VRef 2) (VRef 4) ∧
  ∃ h' t h'' t2 e e2,
    createEnum (VRef 2) (VRef 4) Examples.heapB = Normal (VRef t, h') ∧
    createEnum (VRef t) VUndefined h' = Normal (VRef t2, h'') ∧
    object_keys h'' (VRef t2) = ["VIEWER"; "EDITOR"] ∧
    own_prop h' (VRef t) "EDITOR" = Some (VRef e) ∧
    own_prop h'' (VRef t2) "EDITOR" = Some (VRef e2) ∧ e2 ≠ e ∧
    own_prop h'' (VRef e2) "index" = own_prop h' (VRef e) "index".
Proof.
  split; [by_computation|].
  destruct (createEnum_reapplied_keeps_fields Examples.heapB (VRef 2) (VRef 4)
              VUndefined)
    as (h' & t & h'' & t2 & Hrun1 & Hrun2 & Hkeys & Hent);
    [by_computation | exact I | discriminate |].
  destruct (Hent 1 "EDITOR" (VRef 1))
    as (e & e2 & Hk & Hk2 & Hne & _ & Hindex & _); [reflexivity|].
  exists h', t, h'', t2, e, e2. repeat split; assumption.
Defined.

Lemma createEnum_entry_key_order_witness :
  valid_call Examples.heapA (VRef 2) VUndefined ∧
  ∃ h' t e,
    createEnum (VRef 2) VUndefined Examples.heapA = Normal (VRef t, h') ∧
    own_prop h' (VRef t) "RED" = Some (VRef e) ∧
    spread_src h' (VRef e) =
      [("name", VStr "RED"); ("index", VNum 0); ("hex", VStr "#F00")].
Proof.
  split; [by_computation|].
  destruct (createEnum_entry_key_order Examples.heapA (VRef 2) VUndefined)
    as (h' & t & Hrun & Hent); [by_computation|].
  destruct (Hent 0 "RED" (VRef 0)) as (e & Hk & He);
    [reflexivity | by_computation | by_computation |].
  exists h', t, e. repeat split; assumption.
Defined.

Lemma createEnum_index_is_position_in_values_witness :
  valid_call Examples.heapA (VRef 2) VUndefined ∧
  ∃ h' t values e,
    createEnum (VRef 2) VUndefined Examples.heapA = Normal (VRef t, h') ∧
    object_values (VRef t) h' = Normal (values, h') ∧
    values !! 1 = Some (VRef e) ∧
    own_prop h' (VRef t) "GREEN" = Some (VRef e) ∧
    own_prop h' (VRef e) "index" = Some (VNum 1).
Proof.
  split; [by_computation|].
  destruct (createEnum_index_is_position_in_values Examples.heapA (VRef 2)
              VUndefined)
    as (h' & t & values & Hrun & Hvals & _ & Hent); [by_computation|].
  destruct (Hent 1 "GREEN" (VRef 1)) as (e & Hv & Hk & Hindex); [reflexivity|].
  exists h', t, values, e. repeat split; try assumption.
  apply Hindex. reflexivity.
Defined.

Lemma getLogLevelByValue_finds_first_witness :
  valid_call CallerExamples.heap_levels (VRef 3) VUndefined ∧
  ∃ h' t e,
    createEnum (VRef 3) VUndefined CallerExamples.heap_levels
      = Normal (VRef t, h') ∧
    own_prop h' (VRef t) "WARN" = Some (VRef e) ∧
    getLogLevelByValue (VRef t) (VStr "warn") h' = Normal (VRef e, h') ∧
    getLogLevelByValue (VRef t) (VStr "trace") h' = Normal (VUndefined, h').
Proof.
  split; [by_computation|].
  destruct (getLogLevelByValue_finds_first CallerExamples.heap_levels (VRef 3)
              VUndefined) as (h' & t & Hrun & Hfind); [by_computation|].
  destruct (Hfind (VStr "warn")) as [Hfirst _].
  destruct (Hfind (VStr "trace")) as [_ Hnone].
  destruct (Hfirst 1 "WARN" (VRef 1)) as (e & Hk & Hget);
    [reflexivity | reflexivity | |].
  { intros [|j] k' v' Hj Hes; [|lia].
    vm_compute in Hes. injection Hes as <- <-. vm_compute. discriminate. }
  exists h', t, e. repeat split; try assumption.
  apply Hnone. intros [|[|[|j]]] k' v' Hes; vm_compute in Hes;
    try discriminate Hes; injection Hes as <- <-; vm_compute; discriminate.
Defined.

Lemma LOG_LEVEL_VALUES_in_order_witness :
  valid_call CallerExamples.heap_levels (VRef 3) VUndefined ∧
  ∃ h' t,
    createEnum (VRef 3) VUndefined CallerExamples.heap_levels
      = Normal (VRef t, h') ∧
    LOG_LEVEL_VALUES (VRef t) h' =
      Normal ([VStr "error"; VStr "warn"; VStr "info"], h').
Proof.
  split; [by_computation|].
  destruct (LOG_LEVEL_VALUES_in_order CallerExamples.heap_levels (VRef 3)
              VUndefined) as (h' & t & Hrun & Hmap); [by_computation|].
  exists h', t. split; assumption.
Defined.

Lemma cancelableStatuses_selects_truthy_witness :
  valid_call CallerExamples.heap_statuses (VRef 4) (VRef 6) ∧
  ∃ h' t selected p s,
    createEnum (VRef 4) (VRef 6) CallerExamples.heap_statuses
      = Normal (VRef t, h') ∧
    cancelableStatuses (VRef t) h' = Normal (selected, h') ∧
    own_prop h' (VRef t) "PENDING" = Some (VRef p) ∧ VRef p ∈ selected ∧
    own_prop h' (VRef t) "SHIPPED" = Some (VRef s) ∧ VRef s ∉ selected.
Proof.
  split; [by_computation|].
  destruct (cancelableStatuses_selects_truthy CallerExamples.heap_statuses
              (VRef 4) (VRef 6))
    as (h' & t & values & selected & Hrun & _ & Hsel & _ & Hent);
    [by_computation|].
  destruct (Hent 0 "PENDING" (VRef 0)) as (p & Hp & Hpin); [reflexivity|].
  destruct (Hent 1 "SHIPPED" (VRef 1)) as (s & Hs & Hsin); [reflexivity|].
  exists h', t, selected, p, s. repeat split; try assumption.
  - apply Hpin. reflexivity.
  - intros Hin. apply Hsin in Hin. vm_compute in Hin. discriminate Hin.
Defined.

Lemma getDefault_finds_first_truthy_witness :
  valid_call CallerExamples.heap_durations (VRef 3) VUndefined ∧
  ∃ h' t e,
    createEnum (VRef 3) VUndefined CallerExamples.heap_durations
      = Normal (VRef t, h') ∧
    own_prop h' (VRef t) "MEDIUM" = Some (VRef e) ∧
    getDefault (VRef t) h' = Normal (VRef e, h').
Proof.
  split; [by_computation|].
  destruct (getDefault_finds_first_truthy CallerExamples.heap_durations (VRef 3)
              VUndefined) as (h' & t & Hrun & Hfirst & _); [by_computation|].
  destruct (Hfirst 1 "MEDIUM" (VRef 1)) as (e & Hk & Hget);
    [reflexivity | reflexivity | |].
  { intros [|j] k' v' Hj Hes; [|lia].
    vm_compute in Hes. injection Hes as <- <-. reflexivity. }
  exists h', t, e. repeat split; assumption.
Defined.

(** ** The select options of the form example *)

Section contact_options.
Implicit Types (h : heap) (obj options v : val) (k f : string) (i : nat).

Lemma contactOption_run h' hc e :
  h' `prefix_of` hc → e < length h' →
  contactOption (VRef e) hc =
    Normal (VRef (length hc),
            hc ++ [[("value", member_of h' (VRef e) "value");
                    ("label", member_of h' (VRef e) "label");
                    ("icon", member_of h' (VRef e) "icon")]]).
Proof.
  intros Hpre He.
  unfold contactOption, mbind, M_bind, get_member, new_object, define_own.
  rewrite !alter_fresh_0. simpl.
  by rewrite (prefix_obj_at h' hc) by done.
Qed.

Lemma contactOptions_map h' (locs : list loc) :
  Forall (λ e, e < length h') locs →
  ∀ hc, h' `prefix_of` hc →
    array_map contactOption (VRef <$> locs) hc =
      Normal (VRef <$> seq (length hc) (length locs),
              hc ++ ((λ e, [("value", member_of h' (VRef e) "value");
                            ("label", member_of h' (VRef e) "label");
                            ("icon", member_of h' (VRef e) "icon")])
                       <$> locs)).
Proof.
  induction 1 as [|e locs He _ IH]; intros hc Hpre.
  - simpl. by rewrite app_nil_r.
  - cbn [fmap list_fmap array_map]. unfold mbind at 1, M_bind at 1.
    rewrite (contactOption_run h') by done.
    unfold mbind, M_bind. rewrite IH.
    + unfold mret, M_ret. rewrite length_app. simpl.
      rewrite Nat.add_1_r. by rewrite <-app_assoc.
    + destruct Hpre as [ext ->]. eexists. by rewrite <-app_assoc.
Qed.

(** X11.  On a table built by [createEnum], the select options are one new
    object per entry, in input order, allocated after the table, each with
    exactly the fields [value], [label] and [icon] of its entry (the spec's
    own, else the default, else [undefined]); the table and its entries are
    left as they were. *)
Theorem contactOptions_one_object_per_entry h obj options :
  valid_call h obj options →
  ∃ h' t,
    createEnum obj options h = Normal (VRef t, h') ∧
    let field v f := merged_field h (defaultFields_of h options) v f in
    contactOptions (VRef t) h' =
      Normal (VRef <$> seq (length h') (length (spread_src h obj)),
              h' ++ ((λ p, [("value", field p.2 "value");
                            ("label", field p.2 "label");
                            ("icon", field p.2 "icon")])
                       <$> spread_src h obj)).
Proof.
  intros Hvalid. pose proof Hvalid as (Hh & Hobj & Hopt & Hou & Hon & Hn).
  destruct (createEnum_values h obj options Hvalid)
    as (h' & t & locs & Hrun & _ & Hvals & Hlen & _ & Hent).
  exists h', t. split; [done|]. intros field.
  unfold contactOptions, mbind, M_bind. rewrite Hvals.
  rewrite (contactOptions_map h').
  - rewrite Hlen. do 3 f_equal. apply list_eq. intros i.
    rewrite !list_lookup_fmap.
    destruct (spread_src h obj !! i) as [[k v]|] eqn:Hes;
      cbn [fmap option_fmap option_map].
    + destruct (Hent i k v Hes) as (e & Hl & _ & Hm & Hf). rewrite Hl.
      cbn [fmap option_fmap option_map snd]. unfold field.
      by rewrite !(member_of_merged h h' options v e k i) by done.
    + apply lookup_ge_None in Hes. rewrite lookup_ge_None_2; [done|]. lia.
  - apply Forall_forall. intros e [i Hl]%list_elem_of_lookup_1.
    destruct (lookup_lt_is_Some_2 (spread_src h obj) i) as [[k v] Hes].
    { apply lookup_lt_Some in Hl. unfold loc in *. lia. }
    destruct (Hent i k v Hes) as (e' & Hl' & Hk & _).
    unfold loc in *. rewrite Hl in Hl'. injection Hl' as <-.
    apply get_prop_Some_elem in Hk.
    pose proof (createEnum_heap_ok obj options h _ _ Hvalid Hrun) as [Hh' _].
    pose proof (spread_src_val_ok h' (VRef t) Hh') as Hall.
    rewrite Forall_forall in Hall. apply (Hall _ Hk).
  - done.
Qed.

End contact_options.

Lemma contactOptions_one_object_per_entry_witness :
  valid_call CallerExamples.heap_contacts (VRef 2) VUndefined ∧
  ∃ h' t,
    createEnum (VRef 2) VUndefined CallerExamples.heap_contacts
      = Normal (VRef t, h') ∧
    contactOptions (VRef t) h' =
      Normal ([VRef (length h'); VRef (S (length h'))],
              h' ++ [ [("value", VStr "email"); ("label", VStr "Email");
                       ("icon", VStr "mail")];
                      [("value", VStr "phone"); ("label", VStr "Phone");
                       ("icon", VUndefined)] ]).
Proof.
  split; [by_computation|].
  destruct (contactOptions_one_object_per_entry CallerExamples.heap_contacts
              (VRef 2) VUndefined) as (h' & t & Hrun & Hopts); [by_computation|].
  exists h', t. split; assumption.
Defined.
